(** * Remesh store: a shallow embedding of [packages/remesh/src/store.ts]

    The development follows the source file top to bottom:
    - [Identity]: the canonical storage keys ([getStateStorageKey],
      [getQueryStorageKey], [getEntityStorageKey]) and their memo table;
    - [Scheduler]: the deferred commit ([commitOnNextTick]);
    - [Engine]: storages, the dependency graph, the propagation pass
      ([mark], [updateWipQueryStorage], [updateQueryStorage]), the three
      pending sets and [commit], and the dispatch entry points.

    JavaScript objects are addressed by the [id] every storage receives from
    the [uid] counter; a JavaScript [Set] is a duplicate-free list in
    insertion order; a [Map] or [WeakMap] is a [gmap]. *)

From stdpp Require Import base option list strings pretty gmap.
From Stdlib Require Import ZArith Lia Ascii.

Open Scope string_scope.
Open Scope Z_scope.

(** ** Values

    [Serializable] of the source, plus [undefined].  Numbers are the
    integer-valued ones; strings are byte strings; the fields of an object are
    listed in property enumeration order. *)
#[warnings="-register-all"]
Inductive Value : Type :=
| VUndefined
| VNull
| VBool (b : bool)
| VNum (n : Z)
| VStr (s : string)
| VArr (items : list Value)
| VObj (fields : list (string * Value)).

(** ** Declarations and call-site objects

    The fields [store.ts] reads from the declarations of [remesh.ts].  [oid]
    is the identity of the JavaScript object, the key of the [WeakMap]s.  A
    query's [impl] is resolved through its [queryId] (see [Engine]). *)
Record RemeshState := {
  stateId : N;
  stateName : string;
  s_default : Value;
  s_compare : Value → Value → bool }.

Record RemeshStateItem := {
  si_oid : N;
  State : RemeshState;
  si_key : option string }.

Record RemeshEntity := {
  entityId : N;
  entityName : string;
  e_compare : Value → Value → bool }.

Record RemeshEntityItem := {
  ei_oid : N;
  Entity : RemeshEntity;
  ei_key : option string }.

Record RemeshQuery := {
  queryId : N;
  queryName : string;
  q_compare : Value → Value → bool }.

Record RemeshQueryAction := {
  qa_oid : N;
  Query : RemeshQuery;
  arg : Value }.

(** ** JavaScript [Set]: insertion-ordered, duplicate free *)
Module JSSet.
Section Ops.
Context {A : Type} `{EqDecision A}.

Definition has (x : A) (s : list A) : bool := bool_decide (x ∈ s).

Definition add (x : A) (s : list A) : list A :=
    if has x s then s else s ++ [x].

Definition delete (x : A) (s : list A) : list A :=
    filter (λ y, y ≠ x) s.

Definition size (s : list A) : nat := length s.
End Ops.
End JSSet.

(** ** Identity and key resolution *)
Module Identity.

  (** [JSON.stringify] on strings: the quoted form with the escapes of
      ECMA-262 [QuoteJSONString] for the byte range. *)
Definition dquote : ascii := ascii_of_N 34.

Definition hexDigit (n : N) : ascii :=
    match n with
    | 0 => "0" | 1 => "1" | 2 => "2" | 3 => "3" | 4 => "4" | 5 => "5"
    | 6 => "6" | 7 => "7" | 8 => "8" | 9 => "9" | 10 => "a" | 11 => "b"
    | 12 => "c" | 13 => "d" | 14 => "e" | _ => "f"
    end%N%char.

Definition escapeChar (c : ascii) : string :=
    let n := N_of_ascii c in
    if (n =? 34)%N then String "\"%char (String dquote EmptyString)
    else if (n =? 92)%N then "\\"
    else if (n =? 8)%N then "\b"
    else if (n =? 12)%N then "\f"
    else if (n =? 10)%N then "\n"
    else if (n =? 13)%N then "\r"
    else if (n =? 9)%N then "\t"
    else if (n <? 32)%N then
      "\u00" +:+ String (hexDigit (n / 16)) (String (hexDigit (n mod 16)) EmptyString)
    else String c EmptyString.

Fixpoint escape (s : string) : string :=
    match s with
    | EmptyString => EmptyString
    | String c rest => escapeChar c +:+ escape rest
    end.

Definition quote (s : string) : string :=
    String dquote (escape s) +:+ String dquote EmptyString.

Fixpoint join (sep : string) (l : list string) : string :=
    match l with
    | [] => EmptyString
    | [x] => x
    | x :: rest => x +:+ sep +:+ join sep rest
    end.

  (** [JSON.stringify(value)]: [None] is the JavaScript [undefined] result.
      Inside an array [undefined] prints as [null]; inside an object a field
      whose value is [undefined] is skipped.  Fields are printed in the order
      the object enumerates them. *)
Fixpoint JSON_stringify (v : Value) : option string :=
    match v with
    | VUndefined => None
    | VNull => Some "null"
    | VBool true => Some "true"
    | VBool false => Some "false"
    | VNum n => Some (pretty n)
    | VStr s => Some (quote s)
    | VArr items =>
        Some ("[" +:+
              join "," (map (λ x, default "null" (JSON_stringify x)) items)
              +:+ "]")
    | VObj fields =>
        Some ("{" +:+
              join "," (omap (λ kv, match kv with
                                    | (k, x) =>
                                        match JSON_stringify x with
                                        | Some s => Some (quote k +:+ ":" +:+ s)
                                        | None => None
                                        end
                                    end) fields)
              +:+ "}")
    end.

  (** The template literal of [getQueryStorageKey], without the memo. *)
Definition queryKeyString (id : N) (name : string) (a : Value) : string :=
    let argString := default EmptyString (JSON_stringify a) in
    "Query/" +:+ pretty id +:+ "/" +:+ name +:+ ":" +:+ argString.

Definition stateKeyString (id : N) (name : string) (k : option string) : string :=
    "State/" +:+ pretty id +:+ "/" +:+ name +:+ ":" +:+ default EmptyString k.

Definition entityKeyString (id : N) (name : string) (k : option string) : string :=
    "Entity/" +:+ pretty id +:+ "/" +:+ name +:+ ":" +:+ default EmptyString k.

  (** [storageKeyWeakMap]: object identity to key.  A stored empty string is
      falsy and is recomputed, as [if (key)] does. *)
Definition lookupMemo (memo : gmap N string) (oid : N) : option string :=
    match memo !! oid with
    | Some key => if bool_decide (key = EmptyString) then None else Some key
    | None => None
    end.

Definition getQueryStorageKey (memo : gmap N string) (queryAction : RemeshQueryAction)
    : string * gmap N string :=
    match lookupMemo memo (qa_oid queryAction) with
    | Some key => (key, memo)
    | None =>
        let keyString :=
          queryKeyString (queryId (Query queryAction))
                         (queryName (Query queryAction)) (arg queryAction) in
        (keyString, <[qa_oid queryAction := keyString]> memo)
    end.

Definition getStateStorageKey (memo : gmap N string) (stateItem : RemeshStateItem)
    : string * gmap N string :=
    match lookupMemo memo (si_oid stateItem) with
    | Some key => (key, memo)
    | None =>
        let keyString :=
          stateKeyString (stateId (State stateItem))
                         (stateName (State stateItem)) (si_key stateItem) in
        (keyString, <[si_oid stateItem := keyString]> memo)
    end.

Definition getEntityStorageKey (memo : gmap N string) (entityItem : RemeshEntityItem)
    : string * gmap N string :=
    match lookupMemo memo (ei_oid entityItem) with
    | Some key => (key, memo)
    | None =>
        let keyString :=
          entityKeyString (entityId (Entity entityItem))
                          (entityName (Entity entityItem)) (ei_key entityItem) in
        (keyString, <[ei_oid entityItem := keyString]> memo)
    end.


End Identity.

(** ** Deferred commit: [commitOnNextTick]

    [currentTick] is a JavaScript number, so [currentTick++] is the double
    increment, which stops moving at 2^53.  The microtask queue holds, for
    every [Promise.resolve().then(...)] callback not yet run, the [tick] its
    closure captured; microtasks run first in, first out.  [commits] counts
    the calls of [commit()] the callbacks have made. *)
Module Scheduler.
Section WithStore.
Variable St : Type.
Variable commit : St → St.

Record Sched := {
    store : St;
    currentTick : Z;
    microtasks : list Z;
    commits : nat }.

Definition jsIncr (x : Z) : Z := if x <? 2 ^ 53 then x + 1 else x.

  (** [let tick = currentTick++] reads the old value into [tick], then
      increments; the callback closes over [tick]. *)
Definition commitOnNextTick (s : Sched) : Sched :=
    let tick := currentTick s in
    {| store := store s;
       currentTick := jsIncr (currentTick s);
       microtasks := microtasks s ++ [tick];
       commits := commits s |}.

  (** The callback: [if (tick === currentTick) commit()]. *)
Definition runMicrotask (s : Sched) : Sched :=
    match microtasks s with
    | [] => s
    | tick :: rest =>
        if tick =? currentTick s
        then {| store := commit (store s);
                currentTick := currentTick s;
                microtasks := rest;
                commits := S (commits s) |}
        else {| store := store s;
                currentTick := currentTick s;
                microtasks := rest;
                commits := commits s |}
    end.

Inductive Event := Schedule | RunMicrotask.

Definition step (s : Sched) (e : Event) : Sched :=
    match e with
    | Schedule => commitOnNextTick s
    | RunMicrotask => runMicrotask s
    end.

Definition run (evs : list Event) (s : Sched) : Sched := foldl step s evs.

Definition init (st : St) : Sched :=
    {| store := st; currentTick := 0; microtasks := []; commits := 0 |}.

  (** Every queued callback captured a tick below the current counter. *)
Definition stale (s : Sched) : Prop :=
    Forall (λ tick, tick < currentTick s) (microtasks s).
End WithStore.
End Scheduler.

(** ** The store engine *)
Module Engine.

(** *** Node references and storages

    [upstreamSet] and [wipUpstreamSet] mix the three storage kinds; a
    reference carries the [type] tag the source tests. *)
Inductive NodeRef :=
| StateRef (id : N)
| EntityRef (id : N)
| QueryRef (id : N).

#[global] Instance NodeRef_eq_dec : EqDecision NodeRef.
Proof. solve_decision. Defined.

Inductive Status := default_ | wip | updated.

#[global] Instance Status_eq_dec : EqDecision Status.
Proof. solve_decision. Defined.

Record StateStorage := {
  ss_State : RemeshState;
  ss_key : string;
  currentState : Value;
  ss_downstreamSet : list N }.

Record EntityStorage := {
  es_Entity : RemeshEntity;
  es_key : string;
  currentEntity : option Value;
  es_downstreamSet : list N }.

(** [upstreamSetId] is the identity of the [Set] object held in
    [upstreamSet]: the tracked [get] compares it with the set it closed over
    ([queryStorage.upstreamSet !== upstreamSet]). *)
Record QueryStorage := {
  qs_Query : RemeshQuery;
  qs_arg : Value;
  qs_key : string;
  currentValue : Value;
  upstreamSet : list NodeRef;
  upstreamSetId : N;
  qs_downstreamSet : list N;
  refCount : Z;
  status : Status;
  wipUpstreamSet : list NodeRef }.

Definition with_currentState (v : Value) (s : StateStorage) : StateStorage :=
  {| ss_State := ss_State s; ss_key := ss_key s; currentState := v;
     ss_downstreamSet := ss_downstreamSet s |}.

Definition with_ss_downstreamSet (v : list N) (s : StateStorage) : StateStorage :=
  {| ss_State := ss_State s; ss_key := ss_key s; currentState := currentState s;
     ss_downstreamSet := v |}.

Definition with_currentEntity (v : option Value) (s : EntityStorage) : EntityStorage :=
  {| es_Entity := es_Entity s; es_key := es_key s; currentEntity := v;
     es_downstreamSet := es_downstreamSet s |}.

Definition with_es_downstreamSet (v : list N) (s : EntityStorage) : EntityStorage :=
  {| es_Entity := es_Entity s; es_key := es_key s; currentEntity := currentEntity s;
     es_downstreamSet := v |}.

Definition with_currentValue (v : Value) (s : QueryStorage) : QueryStorage :=
  {| qs_Query := qs_Query s; qs_arg := qs_arg s; qs_key := qs_key s; currentValue := v;
     upstreamSet := upstreamSet s; upstreamSetId := upstreamSetId s;
     qs_downstreamSet := qs_downstreamSet s; refCount := refCount s;
     status := status s; wipUpstreamSet := wipUpstreamSet s |}.

Definition with_upstreamSet (v : list NodeRef) (s : QueryStorage) : QueryStorage :=
  {| qs_Query := qs_Query s; qs_arg := qs_arg s; qs_key := qs_key s;
     currentValue := currentValue s; upstreamSet := v;
     upstreamSetId := upstreamSetId s; qs_downstreamSet := qs_downstreamSet s;
     refCount := refCount s; status := status s;
     wipUpstreamSet := wipUpstreamSet s |}.

Definition with_upstreamSetId (v : N) (s : QueryStorage) : QueryStorage :=
  {| qs_Query := qs_Query s; qs_arg := qs_arg s; qs_key := qs_key s;
     currentValue := currentValue s; upstreamSet := upstreamSet s; upstreamSetId := v;
     qs_downstreamSet := qs_downstreamSet s; refCount := refCount s;
     status := status s; wipUpstreamSet := wipUpstreamSet s |}.

Definition with_qs_downstreamSet (v : list N) (s : QueryStorage) : QueryStorage :=
  {| qs_Query := qs_Query s; qs_arg := qs_arg s; qs_key := qs_key s;
     currentValue := currentValue s; upstreamSet := upstreamSet s;
     upstreamSetId := upstreamSetId s; qs_downstreamSet := v; refCount := refCount s;
     status := status s; wipUpstreamSet := wipUpstreamSet s |}.

Definition with_refCount (v : Z) (s : QueryStorage) : QueryStorage :=
  {| qs_Query := qs_Query s; qs_arg := qs_arg s; qs_key := qs_key s;
     currentValue := currentValue s; upstreamSet := upstreamSet s;
     upstreamSetId := upstreamSetId s; qs_downstreamSet := qs_downstreamSet s;
     refCount := v; status := status s; wipUpstreamSet := wipUpstreamSet s |}.

Definition with_status (v : Status) (s : QueryStorage) : QueryStorage :=
  {| qs_Query := qs_Query s; qs_arg := qs_arg s; qs_key := qs_key s;
     currentValue := currentValue s; upstreamSet := upstreamSet s;
     upstreamSetId := upstreamSetId s; qs_downstreamSet := qs_downstreamSet s;
     refCount := refCount s; status := v; wipUpstreamSet := wipUpstreamSet s |}.

Definition with_wipUpstreamSet (v : list NodeRef) (s : QueryStorage) : QueryStorage :=
  {| qs_Query := qs_Query s; qs_arg := qs_arg s; qs_key := qs_key s;
     currentValue := currentValue s; upstreamSet := upstreamSet s;
     upstreamSetId := upstreamSetId s; qs_downstreamSet := qs_downstreamSet s;
     refCount := refCount s; status := status s; wipUpstreamSet := v |}.


(** *** What a query or command function may do

    An [impl] only reads through [get]: it is a tree of reads ending in a
    result or in a throw of its own. *)
Inductive Input :=
| IState (stateItem : RemeshStateItem)
| IEntity (entityItem : RemeshEntityItem)
| IQuery (queryAction : RemeshQueryAction)
| IOther.

Inductive Prog (A : Type) : Type :=
| Ret (a : A)
| Raise (msg : string)
| Get (input : Input) (k : Value → Prog A).
Arguments Ret {A} a.
Arguments Raise {A} msg.
Arguments Get {A} input k.

(** [RemeshCommandOutput]. *)
#[warnings="-register-all"]
Inductive Output :=
| ONothing
| OList (items : list Output)
| OCommandAction (commandId : N) (arg : Value)
| OStateItemUpdatePayload (stateItem : RemeshStateItem) (value : Value)
| OEntityItemUpdatePayload (entityItem : RemeshEntityItem) (value : Value)
| OEntityItemDeletePayload (entityItem : RemeshEntityItem)
| OEventAction (eventId : N) (arg : Value).

(** Members of [pendingEmitSet]. *)
Inductive EmitItem :=
| EQuery (id : N)
| EState (id : N)
| EEntity (id : N)
| EDelete (entityItem : RemeshEntityItem)
| EEvent (eventId : N) (arg : Value)
| ECommand (commandId : N) (arg : Value).

(** The calls of [subject.next], oldest first. *)
Inductive Notification :=
| NQuery (id : N) (v : Value)
| NState (id : N) (v : Value)
| NEntity (id : N) (v : option Value)
| NEvent (eventId : N) (arg : Value)
| NCommand (commandId : N) (arg : Value).

(** *** The store

    One domain, not ignited: [stateMap], [entityMap] and [queryMap] are its
    maps, and [clearDomainStorage] returns at [!domainStorage.running]. *)
Record Store := {
  uid : N;
  setUid : N;
  stateHeap : gmap N StateStorage;
  entityHeap : gmap N EntityStorage;
  queryHeap : gmap N QueryStorage;
  stateMap : gmap string N;
  entityMap : gmap string N;
  queryMap : gmap string N;
  stateStorageWeakMap : gmap N N;
  entityStorageWeakMap : gmap N N;
  queryStorageWeakMap : gmap N N;
  pendingEmitSet : list EmitItem;
  pendingLeafSet : list N;
  pendingClearSet : list N;
  emitted : list Notification }.

Definition with_uid (v : N) (st : Store) : Store :=
  {| uid := v; setUid := setUid st; stateHeap := stateHeap st;
     entityHeap := entityHeap st; queryHeap := queryHeap st; stateMap := stateMap st;
     entityMap := entityMap st; queryMap := queryMap st;
     stateStorageWeakMap := stateStorageWeakMap st;
     entityStorageWeakMap := entityStorageWeakMap st;
     queryStorageWeakMap := queryStorageWeakMap st;
     pendingEmitSet := pendingEmitSet st; pendingLeafSet := pendingLeafSet st;
     pendingClearSet := pendingClearSet st; emitted := emitted st |}.

Definition with_setUid (v : N) (st : Store) : Store :=
  {| uid := uid st; setUid := v; stateHeap := stateHeap st;
     entityHeap := entityHeap st; queryHeap := queryHeap st; stateMap := stateMap st;
     entityMap := entityMap st; queryMap := queryMap st;
     stateStorageWeakMap := stateStorageWeakMap st;
     entityStorageWeakMap := entityStorageWeakMap st;
     queryStorageWeakMap := queryStorageWeakMap st;
     pendingEmitSet := pendingEmitSet st; pendingLeafSet := pendingLeafSet st;
     pendingClearSet := pendingClearSet st; emitted := emitted st |}.

Definition with_stateHeap (v : gmap N StateStorage) (st : Store) : Store :=
  {| uid := uid st; setUid := setUid st; stateHeap := v; entityHeap := entityHeap st;
     queryHeap := queryHeap st; stateMap := stateMap st; entityMap := entityMap st;
     queryMap := queryMap st; stateStorageWeakMap := stateStorageWeakMap st;
     entityStorageWeakMap := entityStorageWeakMap st;
     queryStorageWeakMap := queryStorageWeakMap st;
     pendingEmitSet := pendingEmitSet st; pendingLeafSet := pendingLeafSet st;
     pendingClearSet := pendingClearSet st; emitted := emitted st |}.

Definition with_entityHeap (v : gmap N EntityStorage) (st : Store) : Store :=
  {| uid := uid st; setUid := setUid st; stateHeap := stateHeap st; entityHeap := v;
     queryHeap := queryHeap st; stateMap := stateMap st; entityMap := entityMap st;
     queryMap := queryMap st; stateStorageWeakMap := stateStorageWeakMap st;
     entityStorageWeakMap := entityStorageWeakMap st;
     queryStorageWeakMap := queryStorageWeakMap st;
     pendingEmitSet := pendingEmitSet st; pendingLeafSet := pendingLeafSet st;
     pendingClearSet := pendingClearSet st; emitted := emitted st |}.

Definition with_queryHeap (v : gmap N QueryStorage) (st : Store) : Store :=
  {| uid := uid st; setUid := setUid st; stateHeap := stateHeap st;
     entityHeap := entityHeap st; queryHeap := v; stateMap := stateMap st;
     entityMap := entityMap st; queryMap := queryMap st;
     stateStorageWeakMap := stateStorageWeakMap st;
     entityStorageWeakMap := entityStorageWeakMap st;
     queryStorageWeakMap := queryStorageWeakMap st;
     pendingEmitSet := pendingEmitSet st; pendingLeafSet := pendingLeafSet st;
     pendingClearSet := pendingClearSet st; emitted := emitted st |}.

Definition with_stateMap (v : gmap string N) (st : Store) : Store :=
  {| uid := uid st; setUid := setUid st; stateHeap := stateHeap st;
     entityHeap := entityHeap st; queryHeap := queryHeap st; stateMap := v;
     entityMap := entityMap st; queryMap := queryMap st;
     stateStorageWeakMap := stateStorageWeakMap st;
     entityStorageWeakMap := entityStorageWeakMap st;
     queryStorageWeakMap := queryStorageWeakMap st;
     pendingEmitSet := pendingEmitSet st; pendingLeafSet := pendingLeafSet st;
     pendingClearSet := pendingClearSet st; emitted := emitted st |}.

Definition with_entityMap (v : gmap string N) (st : Store) : Store :=
  {| uid := uid st; setUid := setUid st; stateHeap := stateHeap st;
     entityHeap := entityHeap st; queryHeap := queryHeap st; stateMap := stateMap st;
     entityMap := v; queryMap := queryMap st;
     stateStorageWeakMap := stateStorageWeakMap st;
     entityStorageWeakMap := entityStorageWeakMap st;
     queryStorageWeakMap := queryStorageWeakMap st;
     pendingEmitSet := pendingEmitSet st; pendingLeafSet := pendingLeafSet st;
     pendingClearSet := pendingClearSet st; emitted := emitted st |}.

Definition with_queryMap (v : gmap string N) (st : Store) : Store :=
  {| uid := uid st; setUid := setUid st; stateHeap := stateHeap st;
     entityHeap := entityHeap st; queryHeap := queryHeap st; stateMap := stateMap st;
     entityMap := entityMap st; queryMap := v;
     stateStorageWeakMap := stateStorageWeakMap st;
     entityStorageWeakMap := entityStorageWeakMap st;
     queryStorageWeakMap := queryStorageWeakMap st;
     pendingEmitSet := pendingEmitSet st; pendingLeafSet := pendingLeafSet st;
     pendingClearSet := pendingClearSet st; emitted := emitted st |}.

Definition with_stateStorageWeakMap (v : gmap N N) (st : Store) : Store :=
  {| uid := uid st; setUid := setUid st; stateHeap := stateHeap st;
     entityHeap := entityHeap st; queryHeap := queryHeap st; stateMap := stateMap st;
     entityMap := entityMap st; queryMap := queryMap st; stateStorageWeakMap := v;
     entityStorageWeakMap := entityStorageWeakMap st;
     queryStorageWeakMap := queryStorageWeakMap st;
     pendingEmitSet := pendingEmitSet st; pendingLeafSet := pendingLeafSet st;
     pendingClearSet := pendingClearSet st; emitted := emitted st |}.

Definition with_entityStorageWeakMap (v : gmap N N) (st : Store) : Store :=
  {| uid := uid st; setUid := setUid st; stateHeap := stateHeap st;
     entityHeap := entityHeap st; queryHeap := queryHeap st; stateMap := stateMap st;
     entityMap := entityMap st; queryMap := queryMap st;
     stateStorageWeakMap := stateStorageWeakMap st; entityStorageWeakMap := v;
     queryStorageWeakMap := queryStorageWeakMap st;
     pendingEmitSet := pendingEmitSet st; pendingLeafSet := pendingLeafSet st;
     pendingClearSet := pendingClearSet st; emitted := emitted st |}.

Definition with_queryStorageWeakMap (v : gmap N N) (st : Store) : Store :=
  {| uid := uid st; setUid := setUid st; stateHeap := stateHeap st;
     entityHeap := entityHeap st; queryHeap := queryHeap st; stateMap := stateMap st;
     entityMap := entityMap st; queryMap := queryMap st;
     stateStorageWeakMap := stateStorageWeakMap st;
     entityStorageWeakMap := entityStorageWeakMap st; queryStorageWeakMap := v;
     pendingEmitSet := pendingEmitSet st; pendingLeafSet := pendingLeafSet st;
     pendingClearSet := pendingClearSet st; emitted := emitted st |}.

Definition with_pendingEmitSet (v : list EmitItem) (st : Store) : Store :=
  {| uid := uid st; setUid := setUid st; stateHeap := stateHeap st;
     entityHeap := entityHeap st; queryHeap := queryHeap st; stateMap := stateMap st;
     entityMap := entityMap st; queryMap := queryMap st;
     stateStorageWeakMap := stateStorageWeakMap st;
     entityStorageWeakMap := entityStorageWeakMap st;
     queryStorageWeakMap := queryStorageWeakMap st; pendingEmitSet := v;
     pendingLeafSet := pendingLeafSet st; pendingClearSet := pendingClearSet st;
     emitted := emitted st |}.

Definition with_pendingLeafSet (v : list N) (st : Store) : Store :=
  {| uid := uid st; setUid := setUid st; stateHeap := stateHeap st;
     entityHeap := entityHeap st; queryHeap := queryHeap st; stateMap := stateMap st;
     entityMap := entityMap st; queryMap := queryMap st;
     stateStorageWeakMap := stateStorageWeakMap st;
     entityStorageWeakMap := entityStorageWeakMap st;
     queryStorageWeakMap := queryStorageWeakMap st;
     pendingEmitSet := pendingEmitSet st; pendingLeafSet := v;
     pendingClearSet := pendingClearSet st; emitted := emitted st |}.

Definition with_pendingClearSet (v : list N) (st : Store) : Store :=
  {| uid := uid st; setUid := setUid st; stateHeap := stateHeap st;
     entityHeap := entityHeap st; queryHeap := queryHeap st; stateMap := stateMap st;
     entityMap := entityMap st; queryMap := queryMap st;
     stateStorageWeakMap := stateStorageWeakMap st;
     entityStorageWeakMap := entityStorageWeakMap st;
     queryStorageWeakMap := queryStorageWeakMap st;
     pendingEmitSet := pendingEmitSet st; pendingLeafSet := pendingLeafSet st;
     pendingClearSet := v; emitted := emitted st |}.

Definition with_emitted (v : list Notification) (st : Store) : Store :=
  {| uid := uid st; setUid := setUid st; stateHeap := stateHeap st;
     entityHeap := entityHeap st; queryHeap := queryHeap st; stateMap := stateMap st;
     entityMap := entityMap st; queryMap := queryMap st;
     stateStorageWeakMap := stateStorageWeakMap st;
     entityStorageWeakMap := entityStorageWeakMap st;
     queryStorageWeakMap := queryStorageWeakMap st;
     pendingEmitSet := pendingEmitSet st; pendingLeafSet := pendingLeafSet st;
     pendingClearSet := pendingClearSet st; emitted := v |}.

Definition emptyStore : Store :=
  {| uid := 0; setUid := 0; stateHeap := ∅; entityHeap := ∅; queryHeap := ∅;
     stateMap := ∅; entityMap := ∅; queryMap := ∅;
     stateStorageWeakMap := ∅; entityStorageWeakMap := ∅; queryStorageWeakMap := ∅;
     pendingEmitSet := []; pendingLeafSet := []; pendingClearSet := [];
     emitted := [] |}.

(** *** State with exceptions

    A throw keeps the store as it was when the throw happened: nothing in the
    source rolls back.  [Stop] is not a result of the source: the fuel of a
    recursion ran out, or a reference points at no storage. *)
Inductive Res (A : Type) : Type :=
| Ok (a : A)
| Throw (msg : string)
| Stop.
Arguments Ok {A} a.
Arguments Throw {A} msg.
Arguments Stop {A}.

Definition M (A : Type) : Type := Store → Store * Res A.

Definition ret {A} (a : A) : M A := λ st, (st, Ok a).

Definition bind {A B} (m : M A) (k : A → M B) : M B :=
  λ st, match m st with
        | (st', Ok a) => k a st'
        | (st', Throw msg) => (st', Throw msg)
        | (st', Stop) => (st', Stop)
        end.

Definition throw {A} (msg : string) : M A := λ st, (st, Throw msg).
Definition stop {A} : M A := λ st, (st, Stop).
Definition gets {A} (f : Store → A) : M A := λ st, (st, Ok (f st)).
Definition modify (f : Store → Store) : M unit := λ st, (f st, Ok tt).

Notation "'let*' x ':=' m 'in' k" := (bind m (λ x, k))
  (at level 10, x name, m at level 100, k at level 200, only parsing).
Notation "m ;;; k" := (bind m (λ _, k))
  (at level 100, k at level 200, right associativity, only parsing).

Fixpoint forEach {X} (l : list X) (body : X → M unit) : M unit :=
  match l with
  | [] => ret tt
  | x :: rest => body x ;;; forEach rest body
  end.

Fixpoint foldM {X B} (body : B → X → M B) (acc : B) (l : list X) : M B :=
  match l with
  | [] => ret acc
  | x :: rest => let* acc' := body acc x in foldM body acc' rest
  end.

(** Running an [impl] against a [get]. *)
Fixpoint runProg {A} (get : Input → M Value) (p : Prog A) : M A :=
  match p with
  | Ret a => ret a
  | Raise msg => throw msg
  | Get input k => let* v := get input in runProg get (k v)
  end.

(** *** Reading and writing storages through their reference *)
Definition readState (id : N) : M StateStorage :=
  λ st, match stateHeap st !! id with
        | Some s => (st, Ok s)
        | None => (st, Stop)
        end.

Definition readEntity (id : N) : M EntityStorage :=
  λ st, match entityHeap st !! id with
        | Some s => (st, Ok s)
        | None => (st, Stop)
        end.

Definition readQuery (id : N) : M QueryStorage :=
  λ st, match queryHeap st !! id with
        | Some s => (st, Ok s)
        | None => (st, Stop)
        end.

Definition updState (id : N) (f : StateStorage → StateStorage) : M unit :=
  let* s := readState id in
  modify (λ st, with_stateHeap (<[id := f s]> (stateHeap st)) st).

Definition updEntity (id : N) (f : EntityStorage → EntityStorage) : M unit :=
  let* s := readEntity id in
  modify (λ st, with_entityHeap (<[id := f s]> (entityHeap st)) st).

Definition updQuery (id : N) (f : QueryStorage → QueryStorage) : M unit :=
  let* s := readQuery id in
  modify (λ st, with_queryHeap (<[id := f s]> (queryHeap st)) st).

(** [id: uid++] *)
Definition freshUid : M N :=
  λ st, (with_uid (uid st + 1)%N st, Ok (uid st)).

(** [new Set()] for an [upstreamSet] *)
Definition freshSet : M N :=
  λ st, (with_setUid (setUid st + 1)%N st, Ok (setUid st)).

(** [upstream.downstreamSet] for either kind of upstream. *)
Definition downstreamSetOf (r : NodeRef) : M (list N) :=
  match r with
  | StateRef id => let* s := readState id in ret (ss_downstreamSet s)
  | EntityRef id => let* s := readEntity id in ret (es_downstreamSet s)
  | QueryRef id => let* s := readQuery id in ret (qs_downstreamSet s)
  end.

Definition updDownstreamSet (r : NodeRef) (f : list N → list N) : M unit :=
  match r with
  | StateRef id => updState id (λ s, with_ss_downstreamSet (f (ss_downstreamSet s)) s)
  | EntityRef id => updEntity id (λ s, with_es_downstreamSet (f (es_downstreamSet s)) s)
  | QueryRef id => updQuery id (λ s, with_qs_downstreamSet (f (qs_downstreamSet s)) s)
  end.

(** [pendingEmitSet.add]: storages are deduplicated by identity; every
    dispatched action or payload is an object of its own. *)
Definition emitItemIs (x y : EmitItem) : bool :=
  match x, y with
  | EQuery a, EQuery b => bool_decide (a = b)
  | EState a, EState b => bool_decide (a = b)
  | EEntity a, EEntity b => bool_decide (a = b)
  | _, _ => false
  end.

Definition pendingEmitHas (x : EmitItem) (s : list EmitItem) : bool :=
  existsb (emitItemIs x) s.

Definition pendingEmitAdd (x : EmitItem) : M unit :=
  modify (λ st, if pendingEmitHas x (pendingEmitSet st) then st
                else with_pendingEmitSet (pendingEmitSet st ++ [x]) st).

Definition notify (n : Notification) : M unit :=
  modify (λ st, with_emitted (emitted st ++ [n]) st).

(** The canonical keys.  [storageKeyWeakMap] only caches them: see
    [Identity.getQueryStorageKey]. *)
Definition stateKeyOf (stateItem : RemeshStateItem) : string :=
  Identity.stateKeyString (stateId (State stateItem)) (stateName (State stateItem))
                          (si_key stateItem).

Definition entityKeyOf (entityItem : RemeshEntityItem) : string :=
  Identity.entityKeyString (entityId (Entity entityItem)) (entityName (Entity entityItem))
                           (ei_key entityItem).

Definition queryKeyOf (queryAction : RemeshQueryAction) : string :=
  Identity.queryKeyString (queryId (Query queryAction)) (queryName (Query queryAction))
                          (arg queryAction).

(** *** State storages *)
Definition getStateValue (S : RemeshState) : Value := s_default S.

Definition createStateStorage (stateItem : RemeshStateItem) : M N :=
  let key := stateKeyOf stateItem in
  let* id := freshUid in
  modify (λ st, with_stateHeap
                  (<[id := {| ss_State := State stateItem; ss_key := key;
                              currentState := getStateValue (State stateItem);
                              ss_downstreamSet := [] |}]> (stateHeap st)) st) ;;;
  modify (λ st, with_stateMap (<[key := id]> (stateMap st)) st) ;;;
  modify (λ st, with_stateStorageWeakMap
                  (<[si_oid stateItem := id]> (stateStorageWeakMap st)) st) ;;;
  ret id.

Definition restoreStateStorage (id : N) : M unit :=
  let* s := readState id in
  let* present := gets (λ st, stateMap st !! ss_key s) in
  match present with
  | Some _ => ret tt
  | None =>
      updState id (with_currentState (getStateValue (ss_State s))) ;;;
      modify (λ st, with_stateMap (<[ss_key s := id]> (stateMap st)) st)
  end.

Definition getStateStorage (stateItem : RemeshStateItem) : M N :=
  let key := stateKeyOf stateItem in
  let* found := gets (λ st, stateMap st !! key) in
  match found with
  | Some id => ret id
  | None =>
      let* cached := gets (λ st, stateStorageWeakMap st !! si_oid stateItem) in
      match cached with
      | Some id => restoreStateStorage id ;;; ret id
      | None => createStateStorage stateItem
      end
  end.

(** *** Entity storages *)
Definition createEntityStorage (entityItem : RemeshEntityItem) : M N :=
  let key := entityKeyOf entityItem in
  let* id := freshUid in
  modify (λ st, with_entityHeap
                  (<[id := {| es_Entity := Entity entityItem; es_key := key;
                              currentEntity := None;
                              es_downstreamSet := [] |}]> (entityHeap st)) st) ;;;
  modify (λ st, with_entityMap (<[key := id]> (entityMap st)) st) ;;;
  modify (λ st, with_entityStorageWeakMap
                  (<[ei_oid entityItem := id]> (entityStorageWeakMap st)) st) ;;;
  ret id.

Definition restoreEntityStorage (id : N) : M unit :=
  let* s := readEntity id in
  let* present := gets (λ st, entityMap st !! es_key s) in
  match present with
  | Some _ => ret tt
  | None =>
      updEntity id (with_currentEntity None) ;;;
      modify (λ st, with_entityMap (<[es_key s := id]> (entityMap st)) st)
  end.

Definition getEntityStorage (entityItem : RemeshEntityItem) : M N :=
  let key := entityKeyOf entityItem in
  let* found := gets (λ st, entityMap st !! key) in
  match found with
  | Some id => ret id
  | None =>
      let* cached := gets (λ st, entityStorageWeakMap st !! ei_oid entityItem) in
      match cached with
      | Some id => restoreEntityStorage id ;;; ret id
      | None => createEntityStorage entityItem
      end
  end.

Definition getCurrentState (stateItem : RemeshStateItem) : M Value :=
  let* id := getStateStorage stateItem in
  let* s := readState id in
  ret (currentState s).

Definition notCreatedYet (key name : string) : string :=
  "The " +:+ key +:+ " of " +:+ name +:+ " is not created yet.".

Definition getCurrentEntity (entityItem : RemeshEntityItem) : M Value :=
  let* id := getEntityStorage entityItem in
  let* s := readEntity id in
  match currentEntity s with
  | None => throw (notCreatedYet (es_key s) (entityName (Entity entityItem)))
  | Some v => ret v
  end.

(** *** Marking *)
Definition setStatus (q : N) (s : Status) : M unit := updQuery q (with_status s).

Definition pendingLeafAdd (q : N) : M unit :=
  modify (λ st, with_pendingLeafSet (JSSet.add q (pendingLeafSet st)) st).

Definition pendingClearAdd (q : N) : M unit :=
  modify (λ st, with_pendingClearSet (JSSet.add q (pendingClearSet st)) st).

Definition wipUpstreamAdd (q : N) (r : NodeRef) : M unit :=
  updQuery q (λ s, with_wipUpstreamSet (JSSet.add r (wipUpstreamSet s)) s).

Fixpoint mark (fuel : nat) (q : N) : M unit :=
  match fuel with
  | O => stop
  | S fuel =>
      setStatus q wip ;;;
      let* s := readQuery q in
      if (0 <? JSSet.size (qs_downstreamSet s))%nat then
        forEach (qs_downstreamSet s) (λ downstream,
          let* d := readQuery downstream in
          if negb (JSSet.has (QueryRef q) (wipUpstreamSet d)) then
            wipUpstreamAdd downstream (QueryRef q) ;;;
            mark fuel downstream
          else ret tt)
      else pendingLeafAdd q
  end.

(** *** Query storages and evaluation *)

(** Which [queryContext] an [impl] runs against: the one built by
    [createQueryStorage], the one built by [updateQueryStorage] (each closing
    over the storage and the [Set] it installed), or the plain
    [remeshInjectedContext] commands read through. *)
Inductive Ctx :=
| CreateCtx (q : N) (set : N)
| UpdateCtx (q : N) (set : N)
| InjectedCtx.

(** [queryStorage.upstreamSet.add(upstream); upstream.downstreamSet.add(queryStorage)] *)
Definition addEdge (q : N) (upstream : NodeRef) : M unit :=
  updQuery q (λ s, with_upstreamSet (JSSet.add upstream (upstreamSet s)) s) ;;;
  updDownstreamSet upstream (JSSet.add q).

Section Program.
(** [Query.impl] and [Command.impl], by declaration id. *)
Variable queryImpl : N → Value → Prog Value.
Variable commandImpl : N → Value → Prog Output.

Fixpoint getQueryStorage (fuel : nat) (queryAction : RemeshQueryAction) {struct fuel} : M N :=
  match fuel with
  | O => stop
  | S fuel =>
      let key := queryKeyOf queryAction in
      let* found := gets (λ st, queryMap st !! key) in
      match found with
      | Some id => ret id
      | None =>
          let* cached := gets (λ st, queryStorageWeakMap st !! qa_oid queryAction) in
          match cached with
          | Some id => restoreQueryStorage fuel id ;;; ret id
          | None => createQueryStorage fuel queryAction
          end
      end
  end

with createQueryStorage (fuel : nat) (queryAction : RemeshQueryAction) {struct fuel} : M N :=
  match fuel with
  | O => stop
  | S fuel =>
      let key := queryKeyOf queryAction in
      let* set := freshSet in
      let* id := freshUid in
      modify (λ st, with_queryHeap
                      (<[id := {| qs_Query := Query queryAction;
                                  qs_arg := arg queryAction;
                                  qs_key := key;
                                  currentValue := VUndefined;
                                  upstreamSet := [];
                                  upstreamSetId := set;
                                  qs_downstreamSet := [];
                                  refCount := 0;
                                  status := default_;
                                  wipUpstreamSet := [] |}]> (queryHeap st)) st) ;;;
      let* currentValue :=
        runProg (ctxGet fuel (CreateCtx id set))
                (queryImpl (queryId (Query queryAction)) (arg queryAction)) in
      updQuery id (with_currentValue currentValue) ;;;
      modify (λ st, with_queryMap (<[key := id]> (queryMap st)) st) ;;;
      modify (λ st, with_queryStorageWeakMap
                      (<[qa_oid queryAction := id]> (queryStorageWeakMap st)) st) ;;;
      ret id
  end

with restoreQueryStorage (fuel : nat) (q : N) {struct fuel} : M unit :=
  match fuel with
  | O => stop
  | S fuel =>
      let* s := readQuery q in
      let* present := gets (λ st, queryMap st !! qs_key s) in
      match present with
      | Some _ => ret tt
      | None =>
          setStatus q default_ ;;;
          modify (λ st, with_queryMap (<[qs_key s := q]> (queryMap st)) st) ;;;
          forEach (upstreamSet s) (λ upstream,
            updDownstreamSet upstream (JSSet.add q) ;;;
            match upstream with
            | QueryRef u => restoreQueryStorage fuel u
            | StateRef u => restoreStateStorage u
            | EntityRef _ => throw "Unknown upstream: [object Object]"
            end) ;;;
          let* _ := updateQueryStorage fuel q in
          ret tt
      end
  end

with getCurrentQueryValue (fuel : nat) (queryAction : RemeshQueryAction) {struct fuel} : M Value :=
  match fuel with
  | O => stop
  | S fuel =>
      let* q := getQueryStorage fuel queryAction in
      updateWipQueryStorage fuel q ;;;
      let* s := readQuery q in
      ret (currentValue s)
  end

(** [remeshInjectedContext.get] *)
with injectedGet (fuel : nat) (input : Input) {struct fuel} : M Value :=
  match fuel with
  | O => stop
  | S fuel =>
      match input with
      | IState stateItem => getCurrentState stateItem
      | IQuery queryAction => getCurrentQueryValue fuel queryAction
      | IEntity entityItem => getCurrentEntity entityItem
      | IOther => throw "Unexpected input in ctx.get(..): [object Object]"
      end
  end

(** [queryContext.get] of [createQueryStorage] and of [updateQueryStorage],
    and the untracked [get] of the other contexts. *)
with ctxGet (fuel : nat) (ctx : Ctx) (input : Input) {struct fuel} : M Value :=
  match fuel with
  | O => stop
  | S fuel =>
      match ctx with
      | InjectedCtx => injectedGet fuel input
      | CreateCtx q set =>
          let* s := readQuery q in
          if negb (bool_decide (upstreamSetId s = set)) then injectedGet fuel input
          else
            match input with
            | IState stateItem =>
                let* upstream := getStateStorage stateItem in
                addEdge q (StateRef upstream) ;;;
                injectedGet fuel input
            | IQuery queryAction =>
                let* upstream := getQueryStorage fuel queryAction in
                addEdge q (QueryRef upstream) ;;;
                injectedGet fuel input
            | _ => injectedGet fuel input
            end
      | UpdateCtx q set =>
          let* s := readQuery q in
          if negb (bool_decide (upstreamSetId s = set)) then injectedGet fuel input
          else
            match input with
            | IState stateItem =>
                let* upstream := getStateStorage stateItem in
                addEdge q (StateRef upstream) ;;;
                injectedGet fuel input
            | IEntity entityItem =>
                let* upstream := getEntityStorage entityItem in
                addEdge q (EntityRef upstream) ;;;
                injectedGet fuel input
            | IQuery queryAction =>
                let* upstream := getQueryStorage fuel queryAction in
                addEdge q (QueryRef upstream) ;;;
                injectedGet fuel input
            | IOther => injectedGet fuel input
            end
      end
  end

with updateWipQueryStorage (fuel : nat) (q : N) {struct fuel} : M unit :=
  match fuel with
  | O => stop
  | S fuel =>
      let* s := readQuery q in
      if negb (bool_decide (status s = wip)) then ret tt
      else
        let* proceed :=
          (if negb (JSSet.size (wipUpstreamSet s) =? 0)%nat then
             let* shouldUpdate :=
               foldM (λ shouldUpdate upstream,
                        match upstream with
                        | StateRef _ => ret true
                        | QueryRef u =>
                            let* us := readQuery u in
                            (if bool_decide (status us = wip)
                             then updateWipQueryStorage fuel u else ret tt) ;;;
                            let* us' := readQuery u in
                            if bool_decide (status us' = updated) then ret true
                            else ret shouldUpdate
                        | EntityRef _ => ret shouldUpdate
                        end) false (wipUpstreamSet s) in
             updQuery q (with_wipUpstreamSet []) ;;;
             if negb shouldUpdate then setStatus q default_ ;;; ret false
             else ret true
           else ret true) in
        if negb proceed then ret tt
        else
          let* isUpdated := updateQueryStorage fuel q in
          if isUpdated then setStatus q updated else setStatus q default_
  end

with updateQueryStorage (fuel : nat) (q : N) {struct fuel} : M bool :=
  match fuel with
  | O => stop
  | S fuel =>
      let* s := readQuery q in
      forEach (upstreamSet s) (λ upstream,
        updDownstreamSet upstream (JSSet.delete q) ;;;
        let* down := downstreamSetOf upstream in
        if (JSSet.size down =? 0)%nat then
          match upstream with
          | QueryRef u => pendingClearAdd u
          | _ => ret tt
          end
        else ret tt) ;;;
      let* set := freshSet in
      updQuery q (λ s, with_upstreamSetId set (with_upstreamSet [] s)) ;;;
      let* newValue :=
        runProg (ctxGet fuel (UpdateCtx q set))
                (queryImpl (queryId (qs_Query s)) (qs_arg s)) in
      let* s' := readQuery q in
      let isEqual := q_compare (qs_Query s) (currentValue s') newValue in
      if isEqual then ret false
      else
        updQuery q (with_currentValue newValue) ;;;
        pendingEmitAdd (EQuery q) ;;;
        ret true
  end.

(** *** Clearing *)
Definition shouldClearQueryStorage (s : QueryStorage) : bool :=
  if (0 <? refCount s) then false
  else if negb (JSSet.size (qs_downstreamSet s) =? 0)%nat then false
  else true.

(** [clearQueryStorage] and [clearQueryStorageIfNeeded].  The closing
    [clearDomainStorageIfNeeded] does nothing for a domain that is not
    running. *)
Fixpoint clearQueryStorage (fuel : nat) (q : N) {struct fuel} : M unit :=
  match fuel with
  | O => stop
  | S fuel =>
      let* s := readQuery q in
      let* present := gets (λ st, queryMap st !! qs_key s) in
      match present with
      | None => ret tt
      | Some _ =>
          modify (λ st, with_queryMap (delete (qs_key s) (queryMap st)) st) ;;;
          forEach (upstreamSet s) (λ upstream,
            updDownstreamSet upstream (JSSet.delete q) ;;;
            match upstream with
            | QueryRef u => clearQueryStorageIfNeeded fuel u
            | _ => ret tt
            end)
      end
  end

with clearQueryStorageIfNeeded (fuel : nat) (q : N) {struct fuel} : M unit :=
  match fuel with
  | O => stop
  | S fuel =>
      let* s := readQuery q in
      if shouldClearQueryStorage s then clearQueryStorage fuel q else ret tt
  end.

Definition clearStateStorage (id : N) : M unit :=
  let* s := readState id in
  let* present := gets (λ st, stateMap st !! ss_key s) in
  match present with
  | None => ret tt
  | Some _ =>
      modify (λ st, with_stateMap (delete (ss_key s) (stateMap st)) st) ;;;
      updState id (with_ss_downstreamSet [])
  end.

Definition clearEntityStorage (fuel : nat) (id : N) : M unit :=
  let* s := readEntity id in
  let* present := gets (λ st, entityMap st !! es_key s) in
  match present with
  | None => ret tt
  | Some _ =>
      modify (λ st, with_entityMap (delete (es_key s) (entityMap st)) st) ;;;
      forEach (es_downstreamSet s) (mark fuel) ;;;
      updEntity id (with_es_downstreamSet []) ;;;
      updEntity id (with_currentEntity None)
  end.

(** *** The three pending sets and [commit] *)
Fixpoint clearPendingStorageSetIfNeeded (fuel : nat) : M unit :=
  match fuel with
  | O => stop
  | S fuel =>
      let* storageList := gets pendingClearSet in
      if (JSSet.size storageList =? 0)%nat then ret tt
      else
        modify (with_pendingClearSet []) ;;;
        forEach storageList (clearQueryStorageIfNeeded fuel) ;;;
        clearPendingStorageSetIfNeeded fuel
  end.

(** [emitEvent] and the command branch hand the argument to the subject of
    the event or command storage; subscribers are outside the store. *)
Definition emitItem (fuel : nat) (item : EmitItem) : M unit :=
  match item with
  | EQuery id => let* s := readQuery id in notify (NQuery id (currentValue s))
  | EState id => let* s := readState id in notify (NState id (currentState s))
  | EEntity id => let* s := readEntity id in notify (NEntity id (currentEntity s))
  | EDelete entityItem =>
      let* id := getEntityStorage entityItem in
      clearEntityStorage fuel id
  | EEvent eventId a => notify (NEvent eventId a)
  | ECommand commandId a => notify (NCommand commandId a)
  end.

Fixpoint clearPendingEmitSetIfNeeded (fuel : nat) : M unit :=
  match fuel with
  | O => stop
  | S fuel =>
      let* list := gets pendingEmitSet in
      if (length list =? 0)%nat then ret tt
      else
        modify (with_pendingEmitSet []) ;;;
        forEach list (λ item,
          let* pending := gets pendingEmitSet in
          if negb (pendingEmitHas item pending) then emitItem fuel item
          else ret tt) ;;;
        clearPendingEmitSetIfNeeded fuel
  end.

Fixpoint clearPendingLeafSetIfNeeded (fuel : nat) : M unit :=
  match fuel with
  | O => stop
  | S fuel =>
      let* queryStorageList := gets pendingLeafSet in
      if (JSSet.size queryStorageList =? 0)%nat then ret tt
      else
        modify (with_pendingLeafSet []) ;;;
        forEach queryStorageList (updateWipQueryStorage fuel) ;;;
        clearPendingLeafSetIfNeeded fuel
  end.

Definition commit (fuel : nat) : M unit :=
  clearPendingLeafSetIfNeeded fuel ;;;
  clearPendingStorageSetIfNeeded fuel ;;;
  clearPendingEmitSetIfNeeded fuel.

(** *** Dispatch *)
Definition updateStateItem (fuel : nat) (stateItem : RemeshStateItem) (newState : Value)
  : M unit :=
  let* id := getStateStorage stateItem in
  let* s := readState id in
  let isEqual := s_compare (State stateItem) (currentState s) newState in
  if isEqual then ret tt
  else
    updState id (with_currentState newState) ;;;
    pendingEmitAdd (EState id) ;;;
    forEach (ss_downstreamSet s) (λ downstream,
      wipUpstreamAdd downstream (StateRef id) ;;;
      mark fuel downstream).

Definition updateEntityItem (fuel : nat) (entityItem : RemeshEntityItem) (newEntity : Value)
  : M unit :=
  let* id := getEntityStorage entityItem in
  let* s := readEntity id in
  match currentEntity s with
  | None => updEntity id (with_currentEntity (Some newEntity))
  | Some current =>
      let isEqual := e_compare (Entity entityItem) current newEntity in
      if isEqual then ret tt
      else
        updEntity id (with_currentEntity (Some newEntity)) ;;;
        pendingEmitAdd (EEntity id) ;;;
        forEach (es_downstreamSet s) (λ downstream,
          wipUpstreamAdd downstream (EntityRef id) ;;;
          mark fuel downstream)
  end.

Definition deleteEntityItem (fuel : nat) (entityItem : RemeshEntityItem) : M unit :=
  let* id := getEntityStorage entityItem in
  updEntity id (with_currentEntity None) ;;;
  let* s := readEntity id in
  forEach (es_downstreamSet s) (mark fuel) ;;;
  updEntity id (with_es_downstreamSet []) ;;;
  pendingEmitAdd (EDelete entityItem).

(** [handleCommandOutput], with [handleCommandAction] in its command branch. *)
Fixpoint handleCommandOutput (fuel : nat) (output : Output) {struct fuel} : M unit :=
  match fuel with
  | O => stop
  | S fuel =>
      match output with
      | ONothing => ret tt
      | OList items => forEach items (handleCommandOutput fuel)
      | OCommandAction commandId a =>
          pendingEmitAdd (ECommand commandId a) ;;;
          let* out := runProg (injectedGet fuel) (commandImpl commandId a) in
          handleCommandOutput fuel out
      | OStateItemUpdatePayload stateItem value => updateStateItem fuel stateItem value
      | OEntityItemUpdatePayload entityItem value => updateEntityItem fuel entityItem value
      | OEntityItemDeletePayload entityItem => deleteEntityItem fuel entityItem
      | OEventAction eventId a => pendingEmitAdd (EEvent eventId a)
      end
  end.

Definition send (fuel : nat) (output : Output) : M unit :=
  handleCommandOutput fuel output ;;;
  commit fuel.

(** [subscribeQuery]: the observable of the storage raises [refCount] on
    subscription; the returned subscription lowers it again and clears the
    storage if nothing holds it. *)
Definition subscribeQuery (fuel : nat) (queryAction : RemeshQueryAction) : M N :=
  let* q := getQueryStorage fuel queryAction in
  updQuery q (λ s, with_refCount (refCount s + 1) s) ;;;
  ret q.

Definition unsubscribe (fuel : nat) (q : N) : M unit :=
  updQuery q (λ s, with_refCount (refCount s - 1) s) ;;;
  clearQueryStorageIfNeeded fuel q.

(** [store.query] *)
Definition query : nat → RemeshQueryAction → M Value := getCurrentQueryValue.

End Program.
End Engine.

(** ** A small application, used for the concrete runs

    States [Count], [Flag] and [Other], the entity [User] with the item [u1],
    and a handful of queries and commands over them. *)
Module Examples.
Import Engine.

Definition numEq (a b : Value) : bool :=
  match a, b with
  | VNum x, VNum y => x =? y
  | _, _ => false
  end.

Definition ageOf (v : Value) : Value :=
  match v with
  | VObj [(_, x)] => x
  | _ => VUndefined
  end.

Definition user (n : Z) : Value := VObj [("age", VNum n)].

Definition plus (a b : Value) : Value :=
  match a, b with
  | VNum x, VNum y => VNum (x + y)
  | _, _ => VUndefined
  end.

Definition CountState : RemeshState :=
  {| stateId := 1; stateName := "Count"; s_default := VNum 0; s_compare := numEq |}.
Definition FlagState : RemeshState :=
  {| stateId := 3; stateName := "Flag"; s_default := VNum 0; s_compare := numEq |}.
Definition OtherState : RemeshState :=
  {| stateId := 4; stateName := "Other"; s_default := VNum 7; s_compare := numEq |}.

Definition Count : RemeshStateItem := {| si_oid := 101; State := CountState; si_key := None |}.
Definition Flag : RemeshStateItem := {| si_oid := 103; State := FlagState; si_key := None |}.
Definition Other : RemeshStateItem := {| si_oid := 104; State := OtherState; si_key := None |}.

Definition User : RemeshEntity :=
  {| entityId := 2; entityName := "User";
     e_compare := λ a b, numEq (ageOf a) (ageOf b) |}.
Definition u1 : RemeshEntityItem := {| ei_oid := 102; Entity := User; ei_key := Some "u1" |}.

Definition queryDecl (id : N) (name : string) : RemeshQuery :=
  {| queryId := id; queryName := name; q_compare := numEq |}.

Definition Age : RemeshQueryAction :=
  {| qa_oid := 105; Query := queryDecl 5 "Age"; arg := VUndefined |}.
Definition Sum : RemeshQueryAction :=
  {| qa_oid := 106; Query := queryDecl 6 "Sum"; arg := VUndefined |}.
Definition Guarded : RemeshQueryAction :=
  {| qa_oid := 107; Query := queryDecl 7 "Guarded"; arg := VUndefined |}.
Definition Doubled : RemeshQueryAction :=
  {| qa_oid := 108; Query := queryDecl 8 "Doubled"; arg := VUndefined |}.
Definition IsPositive : RemeshQueryAction :=
  {| qa_oid := 109; Query := queryDecl 9 "IsPositive"; arg := VUndefined |}.
Definition Label : RemeshQueryAction :=
  {| qa_oid := 110; Query := queryDecl 10 "Label"; arg := VUndefined |}.

(** [Query.impl], by [queryId]:
    - [Age] is the age of [u1];
    - [Sum] is [Count] plus the age of [u1];
    - [Guarded] reads [Flag], then [Other] while [Flag] is 0, and throws
      otherwise;
    - [Doubled] is twice [Count];
    - [IsPositive] is 1 when [Count] is positive and 0 otherwise;
    - [Label] is [IsPositive] plus 10. *)
Definition queryImpl (id : N) (_ : Value) : Prog Value :=
  match id with
  | 5%N => Get (IEntity u1) (λ v, Ret (ageOf v))
  | 6%N => Get (IState Count) (λ c, Get (IEntity u1) (λ v, Ret (plus c (ageOf v))))
  | 7%N => Get (IState Flag) (λ f,
           if numEq f (VNum 0) then Get (IState Other) (λ o, Ret o)
           else Raise "boom")
  | 8%N => Get (IState Count) (λ c, Ret (plus c c))
  | 9%N => Get (IState Count) (λ c,
           match c with
           | VNum n => Ret (VNum (if 0 <? n then 1 else 0))
           | _ => Ret VUndefined
           end)
  | 10%N => Get (IQuery IsPositive) (λ p, Ret (plus p (VNum 10)))
  | _ => Ret VUndefined
  end.

(** [Command.impl], by command id: 20 is [Increase] ([Count := Count + 1]),
    21 writes [Count] back unchanged. *)
Definition commandImpl (id : N) (_ : Value) : Prog Output :=
  match id with
  | 20%N => Get (IState Count) (λ c, Ret (OStateItemUpdatePayload Count (plus c (VNum 1))))
  | 21%N => Get (IState Count) (λ c, Ret (OStateItemUpdatePayload Count c))
  | _ => Ret ONothing
  end.


Definition fuel : nat := 50.

Definition send' (o : Output) (st : Store) : Store * Res unit :=
  send queryImpl commandImpl fuel o st.
Definition subscribe' (a : RemeshQueryAction) (st : Store) : Store * Res N :=
  subscribeQuery queryImpl fuel a st.

(** [u1] is created with age 1 and [Age] gets a subscriber. *)
Definition ageSubscribed : Store :=
  (subscribe' Age (send' (OEntityItemUpdatePayload u1 (user 1)) emptyStore).1).1.

(** ... and then [u1] is updated to age 2. *)
Definition ageUpdated : Store * Res unit :=
  send' (OEntityItemUpdatePayload u1 (user 2)) ageSubscribed.

(** [u1] is created with age 1, [Sum] gets a subscriber, [Count] becomes 1
    (which recomputes [Sum] through [updateQueryStorage]). *)
Definition sumTracked : Store :=
  (send' (OStateItemUpdatePayload Count (VNum 1))
     (subscribe' Sum (send' (OEntityItemUpdatePayload u1 (user 1)) emptyStore).1).1).1.

(** ... and then [u1] is updated to age 5. *)
Definition sumAfterEntityUpdate : Store * Res unit :=
  send' (OEntityItemUpdatePayload u1 (user 5)) sumTracked.

(** ... or [u1] is deleted: the dispatch alone, and the whole [send]. *)
Definition sumAfterDeleteDispatch : Store * Res unit :=
  handleCommandOutput queryImpl commandImpl fuel (OEntityItemDeletePayload u1) sumTracked.

(** [Guarded] gets a subscriber while [Flag] is 0. *)
Definition guardedSubscribed : Store := (subscribe' Guarded emptyStore).1.

(** ... and then [Flag] becomes 1. *)
Definition guardedAfterFlag : Store * Res unit :=
  send' (OStateItemUpdatePayload Flag (VNum 1)) guardedSubscribed.

(** The dispatch of [Flag := 1] alone, not committed. *)
Definition guardedDirty : Store :=
  (handleCommandOutput queryImpl commandImpl fuel
     (OStateItemUpdatePayload Flag (VNum 1)) guardedSubscribed).1.

(** [u1] is created and then deleted. *)
Definition userCreated : Store :=
  (send' (OEntityItemUpdatePayload u1 (user 1)) emptyStore).1.
Definition userDeleted : Store * Res unit :=
  send' (OEntityItemDeletePayload u1) userCreated.

(** [Label] gets a subscriber (which creates [IsPositive] below it), [Count]
    becomes 1. *)
Definition labelSubscribed : Store :=
  (send' (OStateItemUpdatePayload Count (VNum 1)) (subscribe' Label emptyStore).1).1.

(** ... and [Count] is set to 0 by a dispatch that is not committed yet:
    [IsPositive] and [Label] are [wip]. *)
Definition labelDirty : Store :=
  (handleCommandOutput queryImpl commandImpl fuel
     (OStateItemUpdatePayload Count (VNum 0)) labelSubscribed).1.

(** [Count] goes from 1 to 2 under [Label], not committed; then [IsPositive]
    alone is settled (it recomputes to the same value). *)
Definition labelDirty2 : Store :=
  (handleCommandOutput queryImpl commandImpl fuel
     (OStateItemUpdatePayload Count (VNum 2)) labelSubscribed).1.
Definition labelHalfSettled : Store :=
  (updateWipQueryStorage queryImpl fuel 1 labelDirty2).1.

(** [Doubled] gets a subscriber. *)
Definition doubledSubscribed : Store := (subscribe' Doubled emptyStore).1.

(** [Increase] is dispatched under a subscribed [Doubled], and the leaf pass
    of the commit has run: the flush is still to come. *)
Definition increaseSettled : Store :=
  (clearPendingLeafSetIfNeeded queryImpl fuel
     (handleCommandOutput queryImpl commandImpl fuel
        (OCommandAction 20 VUndefined) doubledSubscribed).1).1.

End Examples.

(** ** Predicates used in the statements *)



(** The entity an item resolves to holds no value: its registered storage has
    [currentEntity] null (created by a read only, or deleted), or it is not
    registered and the storage cached for the item, if any, is the one created
    from it (which [restoreEntityStorage] resets), or there is none at all. *)
Definition entityUnset (st : Engine.Store) (entityItem : RemeshEntityItem) : Prop :=
  match Engine.entityMap st !! Engine.entityKeyOf entityItem with
  | Some id =>
      ∃ s, Engine.entityHeap st !! id = Some s ∧ Engine.currentEntity s = None
  | None =>
      match Engine.entityStorageWeakMap st !! ei_oid entityItem with
      | Some id =>
          ∃ s, Engine.entityHeap st !! id = Some s ∧
               Engine.es_key s = Engine.entityKeyOf entityItem
      | None => True
      end
  end.

(** The storage a query context closes over exists. *)
Definition ctxLive (st : Engine.Store) (ctx : Engine.Ctx) : Prop :=
  match ctx with
  | Engine.InjectedCtx => True
  | Engine.CreateCtx q _ | Engine.UpdateCtx q _ => is_Some (Engine.queryHeap st !! q)
  end.

(** The item is registered and its storage holds no value. *)
Definition entityNull (st : Engine.Store) (entityItem : RemeshEntityItem) (id : N) : Prop :=
  Engine.entityMap st !! Engine.entityKeyOf entityItem = Some id ∧
  ∃ s, Engine.entityHeap st !! id = Some s ∧ Engine.currentEntity s = None.

(** The two sides of the dependency graph: the upstream set of a query and
    the downstream set of any node (empty where no storage is allocated). *)
Definition upOf (st : Engine.Store) (q : N) : list Engine.NodeRef :=
  match Engine.queryHeap st !! q with
  | Some s => Engine.upstreamSet s
  | None => []
  end.

Definition downOf (st : Engine.Store) (r : Engine.NodeRef) : list N :=
  match r with
  | Engine.StateRef id =>
      match Engine.stateHeap st !! id with
      | Some s => Engine.ss_downstreamSet s
      | None => []
      end
  | Engine.EntityRef id =>
      match Engine.entityHeap st !! id with
      | Some s => Engine.es_downstreamSet s
      | None => []
      end
  | Engine.QueryRef id =>
      match Engine.queryHeap st !! id with
      | Some s => Engine.qs_downstreamSet s
      | None => []
      end
  end.

(** [A] is in [B]'s upstream set exactly when [B] is in [A]'s downstream set. *)
Definition edgesSymmetric (st : Engine.Store) : Prop :=
  ∀ (A : Engine.NodeRef) (B : N), A ∈ upOf st B ↔ B ∈ downOf st A.


(** Evaluating a query's function afresh against the store, without
    touching its storage. *)
Definition freshValue (queryImpl : N → Value → Engine.Prog Value) (fuel : nat)
    (a : RemeshQueryAction) (st : Engine.Store) : Engine.Res Value :=
  (Engine.runProg (Engine.injectedGet queryImpl fuel)
     (queryImpl (queryId (Query a)) (arg a)) st).2.

(** A computation moves the store only along the relation [R], whatever way
    it ends. *)
Definition respects {A} (R : relation Engine.Store) (m : Engine.M A) : Prop :=
  ∀ st, R st (m st).1.

(** The relation "only marks were made": everything is as before, except
    that queries may have gone [wip], gained members in [wipUpstreamSet], and
    joined [pendingLeafSet]. *)
Definition sameButMark (s s' : Engine.QueryStorage) : Prop :=
  Engine.qs_Query s' = Engine.qs_Query s ∧
  Engine.qs_arg s' = Engine.qs_arg s ∧
  Engine.qs_key s' = Engine.qs_key s ∧
  Engine.currentValue s' = Engine.currentValue s ∧
  Engine.upstreamSet s' = Engine.upstreamSet s ∧
  Engine.upstreamSetId s' = Engine.upstreamSetId s ∧
  Engine.qs_downstreamSet s' = Engine.qs_downstreamSet s ∧
  Engine.refCount s' = Engine.refCount s ∧
  (Engine.status s = Engine.wip → Engine.status s' = Engine.wip).

Definition markOnly (st st' : Engine.Store) : Prop :=
  Engine.uid st' = Engine.uid st ∧
  Engine.setUid st' = Engine.setUid st ∧
  Engine.stateHeap st' = Engine.stateHeap st ∧
  Engine.entityHeap st' = Engine.entityHeap st ∧
  Engine.stateMap st' = Engine.stateMap st ∧
  Engine.entityMap st' = Engine.entityMap st ∧
  Engine.queryMap st' = Engine.queryMap st ∧
  Engine.stateStorageWeakMap st' = Engine.stateStorageWeakMap st ∧
  Engine.entityStorageWeakMap st' = Engine.entityStorageWeakMap st ∧
  Engine.queryStorageWeakMap st' = Engine.queryStorageWeakMap st ∧
  Engine.pendingEmitSet st' = Engine.pendingEmitSet st ∧
  Engine.pendingClearSet st' = Engine.pendingClearSet st ∧
  Engine.emitted st' = Engine.emitted st ∧
  ∀ q, option_Forall2 sameButMark (Engine.queryHeap st !! q) (Engine.queryHeap st' !! q).

(** No edge changed. *)
Definition sameEdges (st st' : Engine.Store) : Prop :=
  (∀ q, upOf st' q = upOf st q) ∧ (∀ r, downOf st' r = downOf st r).

(** Nothing was said to a subscriber, and the leaf list is as it was. *)
Definition quiet (st st' : Engine.Store) : Prop :=
  Engine.emitted st' = Engine.emitted st ∧
  Engine.pendingLeafSet st' = Engine.pendingLeafSet st.

(** No subscriber was notified. *)
Definition silent (st st' : Engine.Store) : Prop :=
  Engine.emitted st' = Engine.emitted st.

(** [pendingClearSet] is as it was. *)
Definition sameClearSet (st st' : Engine.Store) : Prop :=
  Engine.pendingClearSet st' = Engine.pendingClearSet st.

(** The storage cached for a state item, if any, is the one created from it:
    it carries the item's key and declaration.  (The source finds the cached
    storage by the identity of the item, whose key is memoized.) *)
Definition stateCacheAgrees (st : Engine.Store) (stateItem : RemeshStateItem) : Prop :=
  ∀ id, Engine.stateStorageWeakMap st !! si_oid stateItem = Some id →
        ∃ s, Engine.stateHeap st !! id = Some s ∧
             Engine.ss_key s = Engine.stateKeyOf stateItem ∧
             Engine.ss_State s = State stateItem.

(** A member of [wipUpstreamSet] that cannot make the query recompute: an
    entity, or a query that is settled as [default]. *)
Definition cannotTrigger (st : Engine.Store) (r : Engine.NodeRef) : Prop :=
  match r with
  | Engine.StateRef _ => False
  | Engine.EntityRef _ => True
  | Engine.QueryRef u =>
      ∃ su, Engine.queryHeap st !! u = Some su ∧ Engine.status su = Engine.default_
  end.

(** Collection only prunes: no edge is added, no upstream set changes, no
    storage is registered, nothing is queued and nobody is notified; a
    storage keeps its reference count. *)
Definition onlyPrunes (st st' : Engine.Store) : Prop :=
  (∀ k, Engine.queryMap st !! k = None → Engine.queryMap st' !! k = None) ∧
  (∀ r x, x ∈ downOf st' r → x ∈ downOf st r) ∧
  (∀ q, upOf st' q = upOf st q) ∧
  (∀ q, Engine.refCount <$> Engine.queryHeap st' !! q
        = Engine.refCount <$> Engine.queryHeap st !! q) ∧
  Engine.pendingEmitSet st' = Engine.pendingEmitSet st ∧
  Engine.emitted st' = Engine.emitted st.

(** What the flush says for a queued item, read off the store: the value the
    storage holds at that moment, or the argument of the event or command. *)
Definition notificationOf (st : Engine.Store) (item : Engine.EmitItem)
  : option Engine.Notification :=
  match item with
  | Engine.EQuery id =>
      (λ s, Engine.NQuery id (Engine.currentValue s)) <$> Engine.queryHeap st !! id
  | Engine.EState id =>
      (λ s, Engine.NState id (Engine.currentState s)) <$> Engine.stateHeap st !! id
  | Engine.EEntity id =>
      (λ s, Engine.NEntity id (Engine.currentEntity s)) <$> Engine.entityHeap st !! id
  | Engine.EDelete _ => None
  | Engine.EEvent eventId a => Some (Engine.NEvent eventId a)
  | Engine.ECommand commandId a => Some (Engine.NCommand commandId a)
  end.

(** Only [q] left downstream sets; every upstream set is as it was. *)
Definition detaches (q : N) (st st' : Engine.Store) : Prop :=
  (∀ B, upOf st' B = upOf st B) ∧
  (∀ A x, x ∈ downOf st' A → x ∈ downOf st A) ∧
  (∀ A x, x ≠ q → x ∈ downOf st A → x ∈ downOf st' A).

(** ** Extern registry

    [getExternValue], [getExternStorage] and [getExternCurrentValue].  An
    extern declaration is compared by identity ([externImpl.Extern ===
    Extern]), here its [ex_oid]; [externs] is [config.externs], absent when
    the store was built without any. *)
Module Extern.

Record RemeshExtern := {
  ex_oid : N;
  ex_default : Value }.

Record RemeshExternImpl := {
  impl_Extern : RemeshExtern;
  impl_value : Value }.

Record RemeshExternStorage := {
  xs_id : N;
  xs_Extern : RemeshExtern;
  xs_currentValue : Value }.

(** The [uid] counter and [externStorageWeakMap]. *)
Record ExternStore := {
  x_uid : N;
  externStorageWeakMap : gmap N RemeshExternStorage }.

Fixpoint scanExterns (externs : list RemeshExternImpl) (E : RemeshExtern) : Value :=
  match externs with
  | [] => ex_default E
  | externImpl :: rest =>
      if bool_decide (ex_oid (impl_Extern externImpl) = ex_oid E)
      then impl_value externImpl
      else scanExterns rest E
  end.

(** [for (const externImpl of config.externs ?? []) ...; return Extern.default] *)
Definition getExternValue (externs : option (list RemeshExternImpl)) (E : RemeshExtern)
  : Value :=
  scanExterns (default [] externs) E.

Definition getExternStorage (externs : option (list RemeshExternImpl)) (E : RemeshExtern)
    (st : ExternStore) : RemeshExternStorage * ExternStore :=
  match externStorageWeakMap st !! ex_oid E with
  | Some externStorage => (externStorage, st)
  | None =>
      let currentValue := getExternValue externs E in
      let currentExternStorage :=
        {| xs_id := x_uid st; xs_Extern := E; xs_currentValue := currentValue |} in
      (currentExternStorage,
       {| x_uid := (x_uid st + 1)%N;
          externStorageWeakMap :=
            <[ex_oid E := currentExternStorage]> (externStorageWeakMap st) |})
  end.

Definition getExternCurrentValue (externs : option (list RemeshExternImpl))
    (E : RemeshExtern) (st : ExternStore) : Value * ExternStore :=
  let (externStorage, st') := getExternStorage externs E st in
  (xs_currentValue externStorage, st').

End Extern.

(** * Properties *)

(** ** JavaScript [Set] *)
Section JSSetFacts.
Context {A : Type} `{EqDecision A}.

Lemma elem_of_add (x y : A) s : y ∈ JSSet.add x s ↔ y = x ∨ y ∈ s.
Proof.
  unfold JSSet.add, JSSet.has. case_bool_decide as Hx.
  - split; [by right | intros [->|]; done].
  - rewrite elem_of_app, list_elem_of_singleton. tauto.
Qed.

Lemma elem_of_delete (x y : A) s : y ∈ JSSet.delete x s ↔ y ≠ x ∧ y ∈ s.
Proof. unfold JSSet.delete. rewrite list_elem_of_filter. tauto. Qed.

Lemma has_true (x : A) s : JSSet.has x s = true ↔ x ∈ s.
Proof. unfold JSSet.has. by rewrite bool_decide_eq_true. Qed.

Lemma has_false (x : A) s : JSSet.has x s = false ↔ x ∉ s.
Proof. unfold JSSet.has. by rewrite bool_decide_eq_false. Qed.

Lemma add_elem (x : A) s : x ∈ s → JSSet.add x s = s.
Proof. intros Hx. unfold JSSet.add. by rewrite (proj2 (has_true x s) Hx). Qed.
End JSSetFacts.

(** ** Deferred commit *)
Section SchedulerFacts.
Import Scheduler.
Variable St : Type.
Variable commit : St → St.

Lemma stale_init st : stale St (init St st).
Proof. constructor. Qed.

Lemma stale_commitOnNextTick s :
  currentTick St s < 2 ^ 53 → stale St s → stale St (commitOnNextTick St s).
Proof.
  unfold stale, commitOnNextTick, jsIncr; simpl. intros Hlt Hs.
  destruct (Z.ltb_spec (currentTick St s) (2 ^ 53)); [|lia].
  apply Forall_app; split.
  - eapply Forall_impl; [exact Hs|]. simpl. intros; lia.
  - repeat constructor. lia.
Qed.

Lemma runMicrotask_stale s :
  stale St s →
  stale St (runMicrotask St commit s) ∧
  commits St (runMicrotask St commit s) = commits St s ∧
  store St (runMicrotask St commit s) = store St s ∧
  currentTick St (runMicrotask St commit s) = currentTick St s.
Proof.
  unfold stale, runMicrotask. intros Hs.
  destruct (microtasks St s) as [|tick rest] eqn:Hq; [by rewrite Hq|].
  inversion Hs as [|? ? Hlt Hrest]; subst.
  destruct (Z.eqb_spec tick (currentTick St s)); [lia|]. by simpl.
Qed.

(** C2 (the code, against the claim): whatever the interleaving of
    [commitOnNextTick] calls and microtask runs, while the tick counter stays
    below 2^53 no scheduled flush ever calls [commit]: the closure holds the
    value [currentTick] had before the increment, so it never equals the
    counter again.  The store is exactly as the dispatches left it. *)
Theorem scheduled_flush_never_commits (evs : list Event) (s : Sched St) :
  stale St s →
  currentTick St s + Z.of_nat (length evs) ≤ 2 ^ 53 →
  commits St (run St commit evs s) = commits St s ∧
  store St (run St commit evs s) = store St s.
Proof.
  revert s. induction evs as [|e evs IH]; intros s Hs Hb; [done|].
  simpl in Hb. unfold run in *. simpl.
  destruct e; simpl.
  - destruct (IH (commitOnNextTick St s)) as [Hc Hst].
    + apply stale_commitOnNextTick; [lia | done].
    + unfold commitOnNextTick, jsIncr; simpl.
      destruct (Z.ltb_spec (currentTick St s) (2 ^ 53)); lia.
    + by rewrite Hc, Hst.
  - destruct (runMicrotask_stale s Hs) as (Hs' & Hc & Hst & Ht).
    destruct (IH (runMicrotask St commit s)) as [Hc' Hst']; [done | rewrite Ht; lia |].
    by rewrite Hc', Hst', Hc, Hst.
Qed.
End SchedulerFacts.

(** One dispatch fed back on a fresh store, then its microtask: [tick] is 0,
    [currentTick] is 1, and the flush does not commit. *)
Lemma scheduled_flush_never_commits_witness :
  Scheduler.commits nat
    (Scheduler.run nat S [Scheduler.Schedule; Scheduler.RunMicrotask]
                   (Scheduler.init nat 0%nat)) = 0%nat ∧
  Scheduler.store nat
    (Scheduler.run nat S [Scheduler.Schedule; Scheduler.RunMicrotask]
                   (Scheduler.init nat 0%nat)) = 0%nat.
Proof.
  apply (scheduled_flush_never_commits nat S
           [Scheduler.Schedule; Scheduler.RunMicrotask] (Scheduler.init nat 0%nat)).
  - apply stale_init.
  - vm_compute. discriminate.
Defined.

(** Two dispatches in one tick, then both microtasks: neither flush commits. *)
Example two_dispatches_one_tick_no_commit :
  Scheduler.commits nat
    (Scheduler.run nat S
       [Scheduler.Schedule; Scheduler.Schedule;
        Scheduler.RunMicrotask; Scheduler.RunMicrotask]
       (Scheduler.init nat 0%nat)) = 0%nat.
Proof. reflexivity. Qed.

(** ** Identity resolution *)
Section IdentityFacts.
Import Identity.



Lemma append_empty_r (s : string) : s +:+ EmptyString = s.
Proof.
  induction s as [|c s IH]; [done|].
  change (String c (s +:+ EmptyString) = String c s). by rewrite IH.
Qed.


End IdentityFacts.



(** ** The store engine: running a computation *)
Section MonadFacts.
Import Engine.

Lemma bind_Ok {A B} (m : M A) (k : A → M B) st st' b :
  bind m k st = (st', Ok b) →
  ∃ a st1, m st = (st1, Ok a) ∧ k a st1 = (st', Ok b).
Proof.
  unfold bind. destruct (m st) as [st1 [a|msg|]]; intros H;
    [eauto | discriminate | discriminate].
Qed.

Lemma bind_Throw {A B} (m : M A) (k : A → M B) st st' msg :
  bind m k st = (st', Throw msg) →
  m st = (st', Throw msg) ∨
  ∃ a st1, m st = (st1, Ok a) ∧ k a st1 = (st', Throw msg).
Proof.
  unfold bind. destruct (m st) as [st1 [a|msg'|]]; intros H;
    [right; eauto | left; congruence | discriminate].
Qed.

Lemma bind_run_Ok {A B} (m : M A) (k : A → M B) st st1 a :
  m st = (st1, Ok a) → bind m k st = k a st1.
Proof. unfold bind. by intros ->. Qed.

Lemma bind_run_Throw {A B} (m : M A) (k : A → M B) st st1 msg :
  m st = (st1, Throw msg) → bind m k st = (st1, Throw msg).
Proof. unfold bind. by intros ->. Qed.

Lemma ret_Ok {A} (a b : A) st st' : ret a st = (st', Ok b) → st' = st ∧ b = a.
Proof. unfold ret. by intros [= -> ->]. Qed.

Lemma gets_Ok {A} (f : Store → A) (b : A) st st' :
  gets f st = (st', Ok b) → st' = st ∧ b = f st.
Proof. unfold gets. by intros [= -> ->]. Qed.

Lemma modify_Ok (f : Store → Store) u st st' :
  modify f st = (st', Ok u) → st' = f st.
Proof. unfold modify. by intros [= ->]. Qed.

Lemma readQuery_Ok q s st st' :
  readQuery q st = (st', Ok s) → st' = st ∧ queryHeap st !! q = Some s.
Proof.
  unfold readQuery. destruct (queryHeap st !! q); [|discriminate].
  by intros [= -> ->].
Qed.

Lemma readState_Ok q s st st' :
  readState q st = (st', Ok s) → st' = st ∧ stateHeap st !! q = Some s.
Proof.
  unfold readState. destruct (stateHeap st !! q); [|discriminate].
  by intros [= -> ->].
Qed.

Lemma readEntity_Ok q s st st' :
  readEntity q st = (st', Ok s) → st' = st ∧ entityHeap st !! q = Some s.
Proof.
  unfold readEntity. destruct (entityHeap st !! q); [|discriminate].
  by intros [= -> ->].
Qed.

Lemma readQuery_run q s st : queryHeap st !! q = Some s → readQuery q st = (st, Ok s).
Proof. unfold readQuery. by intros ->. Qed.

Lemma readState_run q s st : stateHeap st !! q = Some s → readState q st = (st, Ok s).
Proof. unfold readState. by intros ->. Qed.

Lemma readEntity_run q s st : entityHeap st !! q = Some s → readEntity q st = (st, Ok s).
Proof. unfold readEntity. by intros ->. Qed.

Lemma updQuery_Ok q f u st st' :
  updQuery q f st = (st', Ok u) →
  ∃ s, queryHeap st !! q = Some s ∧
       st' = with_queryHeap (<[q := f s]> (queryHeap st)) st.
Proof.
  unfold updQuery. intros H. apply bind_Ok in H as (s & st1 & Hr & Hm).
  apply readQuery_Ok in Hr as [-> Hs]. apply modify_Ok in Hm. eauto.
Qed.

Lemma updState_Ok q f u st st' :
  updState q f st = (st', Ok u) →
  ∃ s, stateHeap st !! q = Some s ∧
       st' = with_stateHeap (<[q := f s]> (stateHeap st)) st.
Proof.
  unfold updState. intros H. apply bind_Ok in H as (s & st1 & Hr & Hm).
  apply readState_Ok in Hr as [-> Hs]. apply modify_Ok in Hm. eauto.
Qed.

Lemma updEntity_Ok q f u st st' :
  updEntity q f st = (st', Ok u) →
  ∃ s, entityHeap st !! q = Some s ∧
       st' = with_entityHeap (<[q := f s]> (entityHeap st)) st.
Proof.
  unfold updEntity. intros H. apply bind_Ok in H as (s & st1 & Hr & Hm).
  apply readEntity_Ok in Hr as [-> Hs]. apply modify_Ok in Hm. eauto.
Qed.

Lemma updQuery_run q f s st :
  queryHeap st !! q = Some s →
  updQuery q f st = (with_queryHeap (<[q := f s]> (queryHeap st)) st, Ok tt).
Proof. intros Hs. unfold updQuery. by rewrite (bind_run_Ok _ _ _ _ _ (readQuery_run _ _ _ Hs)). Qed.

Lemma updState_run q f s st :
  stateHeap st !! q = Some s →
  updState q f st = (with_stateHeap (<[q := f s]> (stateHeap st)) st, Ok tt).
Proof. intros Hs. unfold updState. by rewrite (bind_run_Ok _ _ _ _ _ (readState_run _ _ _ Hs)). Qed.

Lemma updEntity_run q f s st :
  entityHeap st !! q = Some s →
  updEntity q f st = (with_entityHeap (<[q := f s]> (entityHeap st)) st, Ok tt).
Proof. intros Hs. unfold updEntity. by rewrite (bind_run_Ok _ _ _ _ _ (readEntity_run _ _ _ Hs)). Qed.

Lemma setStatus_Ok q x u st st' :
  setStatus q x st = (st', Ok u) →
  ∃ s, queryHeap st !! q = Some s ∧ queryHeap st' !! q = Some (with_status x s) ∧
       st' = with_queryHeap (<[q := with_status x s]> (queryHeap st)) st.
Proof.
  unfold setStatus. intros H. apply updQuery_Ok in H as (s & Hs & ->).
  exists s. split; [done|]. split; [|done]. simpl. by rewrite lookup_insert_eq.
Qed.
End MonadFacts.

#[global] Arguments Engine.bind : simpl never.
#[global] Arguments Engine.ret : simpl never.
#[global] Arguments Engine.throw : simpl never.
#[global] Arguments Engine.stop : simpl never.
#[global] Arguments Engine.gets : simpl never.
#[global] Arguments Engine.modify : simpl never.
#[global] Arguments Engine.readQuery : simpl never.
#[global] Arguments Engine.readState : simpl never.
#[global] Arguments Engine.readEntity : simpl never.
#[global] Arguments Engine.updQuery : simpl never.
#[global] Arguments Engine.updState : simpl never.
#[global] Arguments Engine.updEntity : simpl never.
#[global] Arguments Engine.setStatus : simpl never.
#[global] Arguments Engine.foldM : simpl never.
#[global] Arguments Engine.forEach : simpl never.
#[global] Arguments Engine.runProg : simpl never.


(** ** Reads *)
Section ReadFacts.
Import Engine.
Variable queryImpl : N → Value → Prog Value.




End ReadFacts.


(** ** Reading an entity that holds no value *)
Section EntityReadFacts.
Import Engine.
Variable queryImpl : N → Value → Prog Value.

Lemma entityNull_unset st entityItem id :
  entityNull st entityItem id → entityUnset st entityItem.
Proof. intros [Hm Hs]. unfold entityUnset. by rewrite Hm. Qed.

Lemma getEntityStorage_unset st entityItem :
  entityUnset st entityItem →
  ∃ st' id, getEntityStorage entityItem st = (st', Ok id) ∧
            entityNull st' entityItem id ∧
            queryHeap st' = queryHeap st.
Proof.
  unfold entityUnset, getEntityStorage. intros Hu.
  unfold bind at 1, gets at 1.
  destruct (entityMap st !! entityKeyOf entityItem) as [id|] eqn:Hm.
  { exists st, id. by repeat split. }
  unfold bind at 1, gets at 1.
  destruct (entityStorageWeakMap st !! ei_oid entityItem) as [id|] eqn:Hw.
  - destruct Hu as (s & Hs & Hk).
    unfold restoreEntityStorage, updEntity, readEntity, bind, gets, modify, ret.
    rewrite Hs, Hk, Hm, Hs. simpl.
    eexists _, id. split; [reflexivity|].
    split; [|done]. split; simpl.
    + by rewrite lookup_insert_eq.
    + eexists. rewrite lookup_insert_eq. by split.
  - unfold createEntityStorage, freshUid, modify, ret, bind. simpl.
    eexists _, (uid st). split; [reflexivity|]. split; [|done]. split; simpl.
    + by rewrite lookup_insert_eq.
    + eexists. rewrite lookup_insert_eq. by split.
Qed.

Lemma getCurrentEntity_null st entityItem id :
  entityNull st entityItem id →
  ∃ msg, getCurrentEntity entityItem st = (st, Throw msg).
Proof.
  intros [Hm (s & Hs & Hn)].
  unfold getCurrentEntity, getEntityStorage, readEntity, bind, gets, ret, throw.
  rewrite Hm, Hs, Hn. by eexists.
Qed.

Lemma getCurrentEntity_unset st entityItem :
  entityUnset st entityItem →
  ∃ st' msg, getCurrentEntity entityItem st = (st', Throw msg).
Proof.
  intros Hu. destruct (getEntityStorage_unset _ _ Hu) as (st' & id & Hg & Hn & _).
  destruct Hn as [Hm (s & Hs & Hn)].
  unfold getCurrentEntity. rewrite (bind_run_Ok _ _ _ _ _ Hg).
  unfold readEntity, bind, throw. rewrite Hs, Hn.
  by eexists _, _.
Qed.

Lemma addEdge_entity_null st q id entityItem :
  is_Some (queryHeap st !! q) →
  entityNull st entityItem id →
  ∃ st', addEdge q (EntityRef id) st = (st', Ok tt) ∧ entityNull st' entityItem id.
Proof.
  intros [sq Hq] [Hm (s & Hs & Hn)].
  unfold addEdge, updDownstreamSet, updQuery, updEntity, readQuery, readEntity,
    bind, modify.
  rewrite Hq. simpl. rewrite Hs.
  eexists. split; [reflexivity|]. split; [done|]. simpl.
  eexists. rewrite lookup_insert_eq. by split.
Qed.

(** C7: whenever the entity an item resolves to holds no value (never
    created, created only as an empty slot, or deleted and not created
    again), reading it throws: through [remeshInjectedContext.get] and through
    the [get] of a query context alike, no value is returned. *)
Theorem unset_entity_read_throws
  (fuel : nat) (ctx : Ctx) (entityItem : RemeshEntityItem) (st : Store) :
  entityUnset st entityItem →
  ctxLive st ctx →
  (∃ st' msg, injectedGet queryImpl (S fuel) (IEntity entityItem) st = (st', Throw msg)) ∧
  (∃ st' msg, ctxGet queryImpl (S (S fuel)) ctx (IEntity entityItem) st = (st', Throw msg)).
Proof.
  intros Hu Hlive. split.
  { cbn [injectedGet]. by apply getCurrentEntity_unset. }
  cbn [ctxGet injectedGet].
  destruct ctx as [q set|q set|]; [| |by apply getCurrentEntity_unset].
  - destruct Hlive as [s Hs].
    rewrite (bind_run_Ok _ _ _ _ _ (readQuery_run _ _ _ Hs)).
    destruct (negb (bool_decide (upstreamSetId s = set)));
      by apply getCurrentEntity_unset.
  - destruct Hlive as [s Hs].
    rewrite (bind_run_Ok _ _ _ _ _ (readQuery_run _ _ _ Hs)).
    destruct (negb (bool_decide (upstreamSetId s = set)));
      [by apply getCurrentEntity_unset|].
    destruct (getEntityStorage_unset _ _ Hu) as (st1 & id & Hg & Hn & Hh).
    rewrite (bind_run_Ok _ _ _ _ _ Hg).
    destruct (addEdge_entity_null st1 q id entityItem) as (st2 & He & Hn2);
      [by rewrite Hh | done |].
    rewrite (bind_run_Ok _ _ _ _ _ He).
    destruct (getCurrentEntity_null _ _ _ Hn2) as [msg Ht]. by eexists _, _.
Qed.
End EntityReadFacts.

(** [u1] was never created: a read on the empty store throws. *)
Lemma unset_entity_read_throws_witness :
  entityUnset Engine.emptyStore Examples.u1 ∧
  (Engine.injectedGet Examples.queryImpl 1 (Engine.IEntity Examples.u1) Engine.emptyStore).2
  = Engine.Throw "The Entity/2/User:u1 of User is not created yet.".
Proof.
  assert (Hu : entityUnset Engine.emptyStore Examples.u1) by exact I.
  split; [exact Hu|].
  destruct (unset_entity_read_throws Examples.queryImpl 0 Engine.InjectedCtx
              Examples.u1 Engine.emptyStore Hu I) as [(st' & msg & H) _].
  vm_compute. reflexivity.
Defined.

(** [u1] was created and deleted: the next read throws again. *)
Example deleted_entity_read_throws :
  (Engine.query Examples.queryImpl Examples.fuel Examples.Age
     Examples.userDeleted.1).2
  = Engine.Throw "The Entity/2/User:u1 of User is not created yet.".
Proof. vm_compute. reflexivity. Qed.

(** ** Concrete runs *)
Section Runs.
Import Engine Examples.

(** C1 (the code, against the claim): [u1] has age 1, [Age] is subscribed,
    [u1] is updated to age 2 and the update is committed.  [Age] is live with
    one subscriber and still holds 1, evaluating it afresh gives 2, and its
    subscriber was told nothing: [createQueryStorage]'s [get] has no entity
    branch, so the read left no edge for [updateEntityItem] to mark. *)
Theorem entity_update_leaves_created_query_stale :
  ageUpdated.2 = Ok tt ∧
  queryMap ageUpdated.1 !! queryKeyOf Age = Some 1%N ∧
  (refCount <$> queryHeap ageUpdated.1 !! 1%N) = Some 1 ∧
  (currentValue <$> queryHeap ageUpdated.1 !! 1%N) = Some (VNum 1) ∧
  freshValue queryImpl fuel Age ageUpdated.1 = Ok (VNum 2) ∧
  upOf ageSubscribed 1 = [] ∧
  emitted ageUpdated.1 = [NEntity 0 (Some (user 2))].
Proof. vm_compute. repeat split; reflexivity. Qed.

(** The second way the same claim fails: once [Sum] has been recomputed by
    [updateQueryStorage] it does have an edge to [u1], the update of [u1]
    marks it, and [updateWipQueryStorage] then finds only an entity in
    [wipUpstreamSet], leaves [shouldUpdate] false and settles [Sum] without
    evaluating it: it holds 2 where a fresh evaluation gives 6. *)
Example entity_update_settles_tracked_query_unevaluated :
  upOf sumTracked 1 = [StateRef 2; EntityRef 0] ∧
  sumAfterEntityUpdate.2 = Ok tt ∧
  (currentValue <$> queryHeap sumAfterEntityUpdate.1 !! 1%N) = Some (VNum 2) ∧
  (status <$> queryHeap sumAfterEntityUpdate.1 !! 1%N) = Some default_ ∧
  freshValue queryImpl fuel Sum sumAfterEntityUpdate.1 = Ok (VNum 6).
Proof. vm_compute. repeat split; reflexivity. Qed.

(** C3 (the claim fails): [Guarded] depends on [Flag] and [Other]; with
    [Flag] at 1 its recomputation throws.  The evaluation never returned, and
    [Guarded] is already gone from the downstream set of [Other]: the old
    edges are removed before the evaluation starts. *)
Lemma recomputation_removes_old_edges_before_evaluating :
  upOf guardedDirty 0 = [StateRef 1; StateRef 2] ∧
  downOf guardedDirty (StateRef 2) = [0%N] ∧
  (updateQueryStorage queryImpl fuel 0 guardedDirty).2 = Throw "boom" ∧
  downOf (updateQueryStorage queryImpl fuel 0 guardedDirty).1 (StateRef 2) = [] ∧
  upOf (updateQueryStorage queryImpl fuel 0 guardedDirty).1 0 = [StateRef 1].
Proof. vm_compute. repeat split; reflexivity. Qed.

(** C5 (the claim fails): the same throw, reached through [send].  It
    reaches the caller, and the store is not the one of the last commit:
    [Flag] holds the new value, its notification is still pending, [Guarded]
    is left [wip] and has lost its edge to [Other]. *)
Lemma failed_recomputation_is_not_rolled_back :
  guardedAfterFlag.2 = Throw "boom" ∧
  (currentState <$> stateHeap guardedSubscribed !! 1%N) = Some (VNum 0) ∧
  (currentState <$> stateHeap guardedAfterFlag.1 !! 1%N) = Some (VNum 1) ∧
  pendingEmitSet guardedSubscribed = [] ∧
  pendingEmitSet guardedAfterFlag.1 = [EState 1] ∧
  (status <$> queryHeap guardedAfterFlag.1 !! 0%N) = Some wip ∧
  upOf guardedSubscribed 0 = [StateRef 1; StateRef 2] ∧
  upOf guardedAfterFlag.1 0 = [StateRef 1] ∧
  downOf guardedSubscribed (StateRef 2) = [0%N] ∧
  downOf guardedAfterFlag.1 (StateRef 2) = [].
Proof. vm_compute. repeat split; reflexivity. Qed.

(** C6 (the claim fails): [Sum] depends on [Count] and [u1]; after the
    delete payload of [u1] is dispatched, both storages are still registered,
    [u1] is in the upstream set of [Sum] and [Sum] is not in the downstream
    set of [u1]. *)
Lemma entity_delete_breaks_edge_symmetry :
  sumAfterDeleteDispatch.2 = Ok tt ∧
  entityMap sumAfterDeleteDispatch.1 !! entityKeyOf u1 = Some 0%N ∧
  queryMap sumAfterDeleteDispatch.1 !! queryKeyOf Sum = Some 1%N ∧
  upOf sumAfterDeleteDispatch.1 1 = [StateRef 2; EntityRef 0] ∧
  downOf sumAfterDeleteDispatch.1 (EntityRef 0) = [] ∧
  ¬ edgesSymmetric sumAfterDeleteDispatch.1.
Proof.
  assert (Hup : upOf sumAfterDeleteDispatch.1 1 = [StateRef 2; EntityRef 0])
    by (vm_compute; reflexivity).
  assert (Hdown : downOf sumAfterDeleteDispatch.1 (EntityRef 0) = [])
    by (vm_compute; reflexivity).
  repeat split; try (vm_compute; reflexivity).
  intros Hsym. destruct (Hsym (EntityRef 0) 1%N) as [Hsym' _].
  rewrite Hup, Hdown in Hsym'.
  clear Hsym Hup Hdown.
  assert (Hin : EntityRef 0 ∈ [StateRef 2; EntityRef 0])
    by (apply elem_of_cons; right; apply elem_of_cons; by left).
  apply Hsym' in Hin. by apply elem_of_nil in Hin.
Qed.


End Runs.

(** ** Frames: what a computation leaves alone *)
Section Respects.
Import Engine.
Context (R : relation Store) `{!PreOrder R}.

Lemma respects_ret {A} (a : A) : respects R (ret a).
Proof. intros st. simpl. reflexivity. Qed.

Lemma respects_throw {A} msg : respects R (@throw A msg).
Proof. intros st. simpl. reflexivity. Qed.

Lemma respects_stop {A} : respects R (@stop A).
Proof. intros st. simpl. reflexivity. Qed.

Lemma respects_gets {A} (f : Store → A) : respects R (gets f).
Proof. intros st. simpl. reflexivity. Qed.

Lemma respects_bind {A B} (m : M A) (k : A → M B) :
  respects R m → (∀ a, respects R (k a)) → respects R (bind m k).
Proof.
  intros Hm Hk st. unfold bind. specialize (Hm st).
  destruct (m st) as [st1 [a|msg|]]; simpl in *; [|done|done].
  etrans; [exact Hm | apply Hk].
Qed.

Lemma respects_forEach {X} (l : list X) (body : X → M unit) :
  (∀ x, respects R (body x)) → respects R (forEach l body).
Proof.
  intros Hb. induction l as [|x l IH]; cbn [forEach].
  - apply respects_ret.
  - apply respects_bind; [apply Hb | by intros _].
Qed.

Lemma respects_foldM {X B} (body : B → X → M B) (acc : B) (l : list X) :
  (∀ b x, respects R (body b x)) → respects R (foldM body acc l).
Proof.
  intros Hb. revert acc. induction l as [|x l IH]; intros acc; cbn [foldM].
  - apply respects_ret.
  - apply respects_bind; [apply Hb | intros b; apply IH].
Qed.

Lemma respects_runProg {A} (get : Input → M Value) (p : Prog A) :
  (∀ i, respects R (get i)) → respects R (runProg get p).
Proof.
  intros Hg. induction p as [a|msg|input k IH]; cbn [runProg].
  - apply respects_ret.
  - apply respects_throw.
  - apply respects_bind; [apply Hg | intros v; apply IH].
Qed.

Lemma respects_readQuery q : respects R (readQuery q).
Proof. intros st. unfold readQuery. destruct (queryHeap st !! q); simpl; reflexivity. Qed.

Lemma respects_readState q : respects R (readState q).
Proof. intros st. unfold readState. destruct (stateHeap st !! q); simpl; reflexivity. Qed.

Lemma respects_readEntity q : respects R (readEntity q).
Proof. intros st. unfold readEntity. destruct (entityHeap st !! q); simpl; reflexivity. Qed.

Lemma respects_modify (f : Store → Store) :
  (∀ st, R st (f st)) → respects R (modify f).
Proof. intros Hf st. apply Hf. Qed.

Lemma respects_updQuery q f :
  (∀ st s, queryHeap st !! q = Some s →
           R st (with_queryHeap (<[q := f s]> (queryHeap st)) st)) →
  respects R (updQuery q f).
Proof.
  intros Hf st. unfold updQuery, bind, readQuery, modify.
  destruct (queryHeap st !! q) as [s|] eqn:Hs; simpl; [by apply Hf | reflexivity].
Qed.

Lemma respects_updState q f :
  (∀ st s, stateHeap st !! q = Some s →
           R st (with_stateHeap (<[q := f s]> (stateHeap st)) st)) →
  respects R (updState q f).
Proof.
  intros Hf st. unfold updState, bind, readState, modify.
  destruct (stateHeap st !! q) as [s|] eqn:Hs; simpl; [by apply Hf | reflexivity].
Qed.

Lemma respects_updEntity q f :
  (∀ st s, entityHeap st !! q = Some s →
           R st (with_entityHeap (<[q := f s]> (entityHeap st)) st)) →
  respects R (updEntity q f).
Proof.
  intros Hf st. unfold updEntity, bind, readEntity, modify.
  destruct (entityHeap st !! q) as [s|] eqn:Hs; simpl; [by apply Hf | reflexivity].
Qed.

Lemma respects_run {A} (m : M A) st st' r : respects R m → m st = (st', r) → R st st'.
Proof. intros Hm Hr. specialize (Hm st). by rewrite Hr in Hm. Qed.
End Respects.

(** Closes the instance goals an [apply] leaves behind. *)
Ltac tc := try (solve [typeclasses eauto]).

(** Splits a [respects] goal along the structure of the computation. *)
Ltac respects_step :=
  lazymatch goal with
  | |- respects _ (Engine.ret _) => apply respects_ret
  | |- respects _ (Engine.throw _) => apply respects_throw
  | |- respects _ Engine.stop => apply respects_stop
  | |- respects _ (Engine.gets _) => apply respects_gets
  | |- respects _ (Engine.readQuery _) => apply respects_readQuery
  | |- respects _ (Engine.readState _) => apply respects_readState
  | |- respects _ (Engine.readEntity _) => apply respects_readEntity
  | |- respects _ (Engine.bind _ _) => apply respects_bind; [..|intros ?]
  | |- respects _ (Engine.forEach _ _) => apply respects_forEach; [..|intros ?]
  | |- respects _ (Engine.foldM _ _ _) => apply respects_foldM; [..|intros ? ?]
  | |- respects _ (Engine.runProg _ _) => apply respects_runProg; [..|intros ?]
  | |- respects _ (if ?c then _ else _) => destruct c
  | |- respects _ (match ?x with _ => _ end) => destruct x
  end; tc.

(** *** Marking *)
Section MarkFacts.
Import Engine.

Lemma sameButMark_refl s : sameButMark s s.
Proof. by repeat split. Qed.

Lemma sameButMark_trans s1 s2 s3 :
  sameButMark s1 s2 → sameButMark s2 s3 → sameButMark s1 s3.
Proof.
  unfold sameButMark. intros (?&?&?&?&?&?&?&?&?) (?&?&?&?&?&?&?&?&?).
  repeat split; try congruence. auto.
Qed.

#[export] Instance markOnly_preorder : PreOrder markOnly.
Proof.
  split.
  - intros st. repeat split. intros q.
    destruct (queryHeap st !! q); constructor. apply sameButMark_refl.
  - intros st1 st2 st3 H12 H23. unfold markOnly in *.
    destruct H12 as (?&?&?&?&?&?&?&?&?&?&?&?&?&H12).
    destruct H23 as (?&?&?&?&?&?&?&?&?&?&?&?&?&H23).
    repeat split; try congruence. intros q.
    specialize (H12 q). specialize (H23 q).
    destruct H12 as [s1 s2 Hs12|]; inversion H23; subst; constructor.
    by eapply sameButMark_trans.
Qed.

Lemma markOnly_updQuery st q s s' :
  queryHeap st !! q = Some s → sameButMark s s' →
  markOnly st (with_queryHeap (<[q := s']> (queryHeap st)) st).
Proof.
  intros Hs Hs'. repeat split. intros q'. simpl.
  destruct (decide (q = q')) as [->|Hne].
  - rewrite lookup_insert_eq, Hs. by constructor.
  - rewrite lookup_insert_ne by done.
    destruct (queryHeap st !! q'); constructor. apply sameButMark_refl.
Qed.

Lemma markOnly_pendingLeafSet st v : markOnly st (with_pendingLeafSet v st).
Proof.
  repeat split. intros q. simpl.
  destruct (queryHeap st !! q); constructor. apply sameButMark_refl.
Qed.

Lemma mark_markOnly fuel q : respects markOnly (mark fuel q).
Proof.
  revert q. induction fuel as [|fuel IH]; intros q; cbn [mark].
  { apply respects_stop; tc. }
  unfold setStatus, wipUpstreamAdd, pendingLeafAdd.
  repeat respects_step; try apply IH.
  - apply respects_updQuery; tc. intros st s Hs. eapply markOnly_updQuery; [done|].
    by repeat split.
  - apply respects_updQuery; tc. intros st s Hs. eapply markOnly_updQuery; [done|].
    by repeat split.
  - apply respects_modify; tc. intros st. apply markOnly_pendingLeafSet.
Qed.

Lemma markOnly_wip st st' q s :
  markOnly st st' → queryHeap st !! q = Some s → status s = wip →
  ∃ s', queryHeap st' !! q = Some s' ∧ status s' = wip.
Proof.
  intros (_&_&_&_&_&_&_&_&_&_&_&_&_&H) Hs Hw. specialize (H q).
  rewrite Hs in H. inversion H as [? s' Hsm|]; subst.
  exists s'. split; [done|]. by apply Hsm.
Qed.

Lemma mark_marks fuel q st st' :
  mark fuel q st = (st', Ok tt) →
  ∃ s', queryHeap st' !! q = Some s' ∧ status s' = wip.
Proof.
  destruct fuel as [|fuel]; [discriminate|]. cbn [mark]. intros H.
  apply bind_Ok in H as ([] & st1 & Hset & H).
  apply setStatus_Ok in Hset as (s & Hs & Hs1 & _).
  eapply markOnly_wip; [|exact Hs1|done].
  eapply (respects_run markOnly); [|exact H]; tc.
  unfold wipUpstreamAdd, pendingLeafAdd.
  repeat respects_step; try apply mark_markOnly.
  - apply respects_updQuery; tc. intros st2 s2 Hs2. eapply markOnly_updQuery; [done|].
    by repeat split.
  - apply respects_modify; tc. intros st2. apply markOnly_pendingLeafSet.
Qed.


Lemma markOnly_sameEdges st st' : markOnly st st' → sameEdges st st'.
Proof.
  intros (_&_&Hsh&Heh&_&_&_&_&_&_&_&_&_&H). split.
  - intros q. unfold upOf. specialize (H q).
    destruct H as [s s' Hs|]; [|done]. by destruct Hs as (_&_&_&_&->&_).
  - intros [id|id|id]; unfold downOf.
    + by rewrite Hsh.
    + by rewrite Heh.
    + specialize (H id). destruct H as [s s' Hs|]; [|done].
      by destruct Hs as (_&_&_&_&_&_&->&_).
Qed.
End MarkFacts.

(** ** Deleting an entity *)
Section DeleteFacts.
Import Engine.
Variable queryImpl : N → Value → Prog Value.
Variable commandImpl : N → Value → Prog Output.






End DeleteFacts.


(** ** Evaluation is silent *)
Section QuietFacts.
Import Engine.
Variable queryImpl : N → Value → Prog Value.

#[export] Instance quiet_preorder : PreOrder quiet.
Proof.
  split.
  - by intros st.
  - intros st1 st2 st3 [? ?] [? ?]. split; congruence.
Qed.

Lemma quiet_modify (f : Store → Store) :
  (∀ st, emitted (f st) = emitted st) →
  (∀ st, pendingLeafSet (f st) = pendingLeafSet st) →
  respects quiet (modify f).
Proof. intros He Hl. apply respects_modify; tc. intros st. by split. Qed.

Lemma quiet_updQuery q f : respects quiet (updQuery q f).
Proof. apply respects_updQuery; tc. intros st s _. by split. Qed.

Lemma quiet_updState q f : respects quiet (updState q f).
Proof. apply respects_updState; tc. intros st s _. by split. Qed.

Lemma quiet_updEntity q f : respects quiet (updEntity q f).
Proof. apply respects_updEntity; tc. intros st s _. by split. Qed.

Lemma quiet_freshUid : respects quiet freshUid.
Proof. by intros st. Qed.

Lemma quiet_freshSet : respects quiet freshSet.
Proof. by intros st. Qed.

Lemma quiet_pendingEmitAdd x : respects quiet (pendingEmitAdd x).
Proof.
  intros st. unfold pendingEmitAdd, modify. simpl.
  by destruct (pendingEmitHas x (pendingEmitSet st)).
Qed.

Ltac quiet_leaf :=
  first
    [ apply quiet_updQuery | apply quiet_updState | apply quiet_updEntity
    | apply quiet_freshUid | apply quiet_freshSet | apply quiet_pendingEmitAdd
    | apply quiet_modify; intros ?; reflexivity ].

Ltac quiet_auto := repeat first [ respects_step | quiet_leaf ].

Lemma quiet_getStateStorage stateItem : respects quiet (getStateStorage stateItem).
Proof.
  unfold getStateStorage, restoreStateStorage, createStateStorage. quiet_auto.
Qed.

Lemma quiet_getEntityStorage entityItem : respects quiet (getEntityStorage entityItem).
Proof.
  unfold getEntityStorage, restoreEntityStorage, createEntityStorage. quiet_auto.
Qed.

Lemma quiet_restoreStateStorage id : respects quiet (restoreStateStorage id).
Proof. unfold restoreStateStorage. quiet_auto. Qed.

Lemma quiet_getCurrentState stateItem : respects quiet (getCurrentState stateItem).
Proof. unfold getCurrentState. quiet_auto. apply quiet_getStateStorage. Qed.

Lemma quiet_getCurrentEntity entityItem : respects quiet (getCurrentEntity entityItem).
Proof. unfold getCurrentEntity. quiet_auto. apply quiet_getEntityStorage. Qed.

Lemma quiet_updDownstreamSet r f : respects quiet (updDownstreamSet r f).
Proof. unfold updDownstreamSet. quiet_auto. Qed.

Lemma quiet_downstreamSetOf r : respects quiet (downstreamSetOf r).
Proof. unfold downstreamSetOf. quiet_auto. Qed.

Lemma quiet_addEdge q r : respects quiet (addEdge q r).
Proof. unfold addEdge. quiet_auto. apply quiet_updDownstreamSet. Qed.

Ltac quiet_known :=
  first
    [ apply quiet_getStateStorage | apply quiet_getEntityStorage
    | apply quiet_restoreStateStorage
    | apply quiet_getCurrentState | apply quiet_getCurrentEntity
    | apply quiet_updDownstreamSet | apply quiet_downstreamSetOf
    | apply quiet_addEdge ].

(** The whole evaluation cluster, by induction on the fuel. *)
Lemma quiet_evaluation fuel :
  (∀ a, respects quiet (getQueryStorage queryImpl fuel a)) ∧
  (∀ a, respects quiet (createQueryStorage queryImpl fuel a)) ∧
  (∀ q, respects quiet (restoreQueryStorage queryImpl fuel q)) ∧
  (∀ a, respects quiet (getCurrentQueryValue queryImpl fuel a)) ∧
  (∀ i, respects quiet (injectedGet queryImpl fuel i)) ∧
  (∀ ctx i, respects quiet (ctxGet queryImpl fuel ctx i)) ∧
  (∀ q, respects quiet (updateWipQueryStorage queryImpl fuel q)) ∧
  (∀ q, respects quiet (updateQueryStorage queryImpl fuel q)).
Proof.
  induction fuel as [|fuel (IHget & IHcreate & IHrestore & IHvalue & IHinj & IHctx
                            & IHwip & IHupd)].
  { repeat apply conj; intros; apply respects_stop; tc. }
  repeat apply conj.
  - intros a. cbn [getQueryStorage].
    repeat first [ respects_step | quiet_leaf | quiet_known
                 | apply IHrestore | apply IHcreate ].
  - intros a. cbn [createQueryStorage]. unfold setStatus.
    repeat first [ respects_step | quiet_leaf | quiet_known | apply IHctx ].
  - intros q. cbn [restoreQueryStorage]. unfold setStatus.
    repeat first [ respects_step | quiet_leaf | quiet_known
                 | apply IHrestore | apply IHupd ].
  - intros a. cbn [getCurrentQueryValue].
    repeat first [ respects_step | quiet_leaf | quiet_known
                 | apply IHget | apply IHwip ].
  - intros i. cbn [injectedGet].
    repeat first [ respects_step | quiet_leaf | quiet_known | apply IHvalue ].
  - intros ctx i. cbn [ctxGet].
    repeat first [ respects_step | quiet_leaf | quiet_known
                 | apply IHinj | apply IHget ].
  - intros q. cbn [updateWipQueryStorage]. unfold setStatus.
    repeat first [ respects_step | quiet_leaf | quiet_known
                 | apply IHwip | apply IHupd ].
  - intros q. cbn [updateQueryStorage]. unfold pendingClearAdd.
    repeat first [ respects_step | quiet_leaf | quiet_known | apply IHctx ].
Qed.
End QuietFacts.

(** ** Dispatch, commit and the flush *)
Section CommitFacts.
Import Engine.
Variable queryImpl : N → Value → Prog Value.
Variable commandImpl : N → Value → Prog Output.

Lemma respects_weaken {A} (R R' : relation Store) (m : M A) :
  (∀ st st', R st st' → R' st st') → respects R m → respects R' m.
Proof. intros HR Hm st. apply HR, Hm. Qed.

#[export] Instance silent_preorder : PreOrder silent.
Proof. split; [by intros st | intros st1 st2 st3; unfold silent; congruence]. Qed.

#[export] Instance sameClearSet_preorder : PreOrder sameClearSet.
Proof. split; [by intros st | intros st1 st2 st3; unfold sameClearSet; congruence]. Qed.

Lemma quiet_silent st st' : quiet st st' → silent st st'.
Proof. by intros [? _]. Qed.

Lemma markOnly_silent st st' : markOnly st st' → silent st st'.
Proof. by intros (_&_&_&_&_&_&_&_&_&_&_&_&?&_). Qed.

Lemma markOnly_sameClearSet st st' : markOnly st st' → sameClearSet st st'.
Proof. by intros (_&_&_&_&_&_&_&_&_&_&_&?&_&_). Qed.

Lemma silent_mark fuel q : respects silent (mark fuel q).
Proof. eapply respects_weaken; [apply markOnly_silent | apply mark_markOnly]. Qed.

Lemma silent_modify (f : Store → Store) :
  (∀ st, emitted (f st) = emitted st) → respects silent (modify f).
Proof. intros He. apply respects_modify; tc. intros st. apply He. Qed.

Lemma silent_pendingEmitAdd x : respects silent (pendingEmitAdd x).
Proof. eapply respects_weaken; [apply quiet_silent | apply quiet_pendingEmitAdd]. Qed.

Ltac silent_leaf :=
  first
    [ apply silent_mark | apply silent_pendingEmitAdd
    | apply silent_modify; intros ?; reflexivity
    | eapply respects_weaken;
      [ apply quiet_silent
      | first [ apply quiet_updQuery | apply quiet_updState | apply quiet_updEntity
              | apply quiet_getStateStorage | apply quiet_getEntityStorage
              | apply (proj1 (proj2 (proj2 (proj2 (proj2 (quiet_evaluation queryImpl _))))))
              | apply (proj1 (proj2 (proj2 (proj2 (proj2 (proj2 (proj2 (quiet_evaluation queryImpl _))))))))
              ] ] ].

Lemma silent_updateStateItem fuel stateItem v :
  respects silent (updateStateItem fuel stateItem v).
Proof.
  unfold updateStateItem, wipUpstreamAdd. repeat first [ respects_step | silent_leaf ].
Qed.

Lemma silent_updateEntityItem fuel entityItem v :
  respects silent (updateEntityItem fuel entityItem v).
Proof.
  unfold updateEntityItem, wipUpstreamAdd. repeat first [ respects_step | silent_leaf ].
Qed.

Lemma silent_deleteEntityItem fuel entityItem :
  respects silent (deleteEntityItem fuel entityItem).
Proof.
  unfold deleteEntityItem. repeat first [ respects_step | silent_leaf ].
Qed.

Lemma silent_handleCommandOutput fuel output :
  respects silent (handleCommandOutput queryImpl commandImpl fuel output).
Proof.
  revert output. induction fuel as [|fuel IH]; intros output; [by intros st|].
  cbn [handleCommandOutput]. destruct output.
  - apply respects_ret; tc.
  - apply respects_forEach; tc. intros o. apply IH.
  - repeat first [ respects_step | silent_leaf | apply IH ].
  - apply silent_updateStateItem.
  - apply silent_updateEntityItem.
  - apply silent_deleteEntityItem.
  - apply silent_pendingEmitAdd.
Qed.

(** X1: dispatching never notifies.  Whatever the output and however the run
    ends, [handleCommandOutput] makes no call of [subject.next]; every
    notification waits for the flush of a commit. *)
Theorem dispatch_notifies_nobody (fuel : nat) (output : Output) (st : Store) :
  emitted (handleCommandOutput queryImpl commandImpl fuel output st).1 = emitted st.
Proof. apply silent_handleCommandOutput. Qed.

Lemma silent_leafPhase fuel : respects silent (clearPendingLeafSetIfNeeded queryImpl fuel).
Proof.
  induction fuel as [|fuel IH]; cbn [clearPendingLeafSetIfNeeded].
  { apply respects_stop; tc. }
  repeat first [ respects_step | silent_leaf | apply IH ].
Qed.

(** X2: a throw in the propagation pass reaches the caller of [send] with
    the store as the throw left it, and the commit flushes nothing: no
    notification has been made since before the dispatch. *)
Theorem throw_in_propagation_skips_flush
  (fuel : nat) (output : Output) (st st1 st' : Store) (msg : string) :
  handleCommandOutput queryImpl commandImpl fuel output st = (st1, Ok tt) →
  clearPendingLeafSetIfNeeded queryImpl fuel st1 = (st', Throw msg) →
  send queryImpl commandImpl fuel output st = (st', Throw msg) ∧
  emitted st' = emitted st.
Proof.
  intros Hd Hl. split.
  - unfold send, commit. rewrite (bind_run_Ok _ _ _ _ _ Hd).
    by rewrite (bind_run_Throw _ _ _ _ _ Hl).
  - transitivity (emitted st1).
    + eapply (respects_run silent); [apply silent_leafPhase | exact Hl].
    + eapply (respects_run silent); [apply silent_handleCommandOutput | exact Hd].
Qed.

(** *** What a finished commit leaves pending *)
Lemma emitPhase_empties fuel st st' :
  clearPendingEmitSetIfNeeded fuel st = (st', Ok tt) → pendingEmitSet st' = [].
Proof.
  revert st. induction fuel as [|fuel IH]; intros st; [discriminate|].
  cbn [clearPendingEmitSetIfNeeded]. intros H.
  apply bind_Ok in H as (list & st1 & Hg & H). apply gets_Ok in Hg as [-> ->].
  destruct (length (pendingEmitSet st) =? 0)%nat eqn:Hlen.
  - apply ret_Ok in H as [-> _]. apply Nat.eqb_eq in Hlen.
    by destruct (pendingEmitSet st).
  - apply bind_Ok in H as (? & st2 & _ & H).
    apply bind_Ok in H as (? & st3 & _ & H). by apply IH in H.
Qed.

Lemma clearPhase_empties fuel st st' :
  clearPendingStorageSetIfNeeded fuel st = (st', Ok tt) → pendingClearSet st' = [].
Proof.
  revert st. induction fuel as [|fuel IH]; intros st; [discriminate|].
  cbn [clearPendingStorageSetIfNeeded]. intros H.
  apply bind_Ok in H as (list & st1 & Hg & H). apply gets_Ok in Hg as [-> ->].
  destruct (JSSet.size (pendingClearSet st) =? 0)%nat eqn:Hlen.
  - apply ret_Ok in H as [-> _]. apply Nat.eqb_eq in Hlen.
    by destruct (pendingClearSet st).
  - apply bind_Ok in H as (? & st2 & _ & H).
    apply bind_Ok in H as (? & st3 & _ & H). by apply IH in H.
Qed.

Lemma sameClearSet_modify (f : Store → Store) :
  (∀ st, pendingClearSet (f st) = pendingClearSet st) → respects sameClearSet (modify f).
Proof. intros He. apply respects_modify; tc. intros st. apply He. Qed.

Lemma sameClearSet_updEntity q f : respects sameClearSet (updEntity q f).
Proof. apply respects_updEntity; tc. by intros st s _. Qed.

Lemma sameClearSet_getEntityStorage entityItem :
  respects sameClearSet (getEntityStorage entityItem).
Proof.
  unfold getEntityStorage, restoreEntityStorage, createEntityStorage, freshUid.
  repeat first [ respects_step | apply sameClearSet_updEntity
               | apply sameClearSet_modify; intros ?; reflexivity
               | by intros st ].
Qed.

Lemma sameClearSet_emitItem fuel item : respects sameClearSet (emitItem fuel item).
Proof.
  unfold emitItem, notify, clearEntityStorage.
  repeat first [ respects_step | apply sameClearSet_updEntity
               | apply sameClearSet_getEntityStorage
               | apply sameClearSet_modify; intros ?; reflexivity
               | eapply respects_weaken; [apply markOnly_sameClearSet | apply mark_markOnly] ].
Qed.

Lemma sameClearSet_emitPhase fuel :
  respects sameClearSet (clearPendingEmitSetIfNeeded fuel).
Proof.
  induction fuel as [|fuel IH]; cbn [clearPendingEmitSetIfNeeded].
  { apply respects_stop; tc. }
  repeat first [ respects_step | apply sameClearSet_emitItem | apply IH
               | apply sameClearSet_modify; intros ?; reflexivity ].
Qed.

(** X3: when [commit] returns, nothing is left to notify and nothing is left
    to collect: [pendingEmitSet] and [pendingClearSet] are both empty. *)
Theorem commit_drains_emit_and_clear_sets (fuel : nat) (st st' : Store) :
  commit queryImpl fuel st = (st', Ok tt) →
  pendingEmitSet st' = [] ∧ pendingClearSet st' = [].
Proof.
  unfold commit. intros H.
  apply bind_Ok in H as ([] & st1 & _ & H).
  apply bind_Ok in H as ([] & st2 & Hc & H).
  split; [by apply emitPhase_empties in H|].
  apply clearPhase_empties in Hc.
  rewrite <- Hc. eapply (respects_run sameClearSet); [apply sameClearSet_emitPhase | exact H].
Qed.
End CommitFacts.

(** [Flag] becomes 1 under [Guarded], whose recomputation throws. *)
Lemma throw_in_propagation_skips_flush_witness :
  Engine.send Examples.queryImpl Examples.commandImpl Examples.fuel
    (Engine.OStateItemUpdatePayload Examples.Flag (VNum 1)) Examples.guardedSubscribed
  = ((Engine.clearPendingLeafSetIfNeeded Examples.queryImpl Examples.fuel
        Examples.guardedDirty).1, Engine.Throw "boom") ∧
  Engine.emitted
    (Engine.clearPendingLeafSetIfNeeded Examples.queryImpl Examples.fuel
       Examples.guardedDirty).1
  = Engine.emitted Examples.guardedSubscribed.
Proof.
  apply (throw_in_propagation_skips_flush Examples.queryImpl Examples.commandImpl
           Examples.fuel (Engine.OStateItemUpdatePayload Examples.Flag (VNum 1))
           Examples.guardedSubscribed Examples.guardedDirty).
  - vm_compute. reflexivity.
  - vm_compute. reflexivity.
Defined.

(** The commit of [Count := 1] under a subscribed [Label]. *)
Lemma commit_drains_emit_and_clear_sets_witness :
  Engine.pendingEmitSet Examples.labelSubscribed = [] ∧
  Engine.pendingClearSet Examples.labelSubscribed = [].
Proof.
  apply (commit_drains_emit_and_clear_sets Examples.queryImpl Examples.fuel
           (Engine.handleCommandOutput Examples.queryImpl Examples.commandImpl
              Examples.fuel (Engine.OStateItemUpdatePayload Examples.Count (VNum 1))
              (Examples.subscribe' Examples.Label Engine.emptyStore).1).1).
  vm_compute. reflexivity.
Defined.

(** ** Resolving storages, keys and edges *)
Section StorageFacts.
Import Engine.

(** X4: [mark] only marks.  However it ends, it changes no value, no edge,
    no map, no pending notification and no pending collection, and a query
    that was [wip] stays [wip].  When it returns, the marked query is [wip],
    and if it has no downstream it is in [pendingLeafSet]. *)
Theorem mark_only_marks (fuel : nat) (q : N) (st : Store) :
  markOnly st (mark fuel q st).1 ∧
  ∀ st', mark fuel q st = (st', Ok tt) →
         ∃ s', queryHeap st' !! q = Some s' ∧ status s' = wip ∧
               (qs_downstreamSet s' = [] → q ∈ pendingLeafSet st').
Proof.
  split; [apply mark_markOnly|]. intros st' H.
  destruct (mark_marks _ _ _ _ H) as (s' & Hs' & Hw).
  exists s'. split; [done|]. split; [done|]. intros Hleaf.
  pose proof (respects_run markOnly _ _ _ _ (mark_markOnly fuel q) H) as Hmo.
  destruct fuel as [|fuel]; [discriminate|]. cbn [mark] in H.
  apply bind_Ok in H as ([] & st1 & Hset & H).
  apply bind_Ok in H as (s1 & st2 & Hr & H). apply readQuery_Ok in Hr as [-> Hs1].
  apply setStatus_Ok in Hset as (s0 & Hs0 & Hs1' & ->).
  rewrite Hs1' in Hs1. injection Hs1 as <-.
  destruct Hmo as (_&_&_&_&_&_&_&_&_&_&_&_&_&Hq). specialize (Hq q).
  rewrite Hs0, Hs' in Hq. inversion Hq as [? ? Hsm|]; subst.
  destruct Hsm as (_&_&_&_&_&_&Hd&_). rewrite Hleaf in Hd.
  simpl in H. rewrite <- Hd in H. simpl in H.
  unfold pendingLeafAdd, modify in H. injection H as <-. simpl.
  apply elem_of_add. by left.
Qed.

(** X6: resolving a state storage is idempotent.  Once [getStateStorage] has
    returned a storage for an item, asking again returns the same storage and
    changes nothing. *)
Theorem getStateStorage_twice (stateItem : RemeshStateItem) (st st1 : Store) (id : N) :
  getStateStorage stateItem st = (st1, Ok id) →
  getStateStorage stateItem st1 = (st1, Ok id).
Proof.
  intros H0. pose proof H0 as H.
  unfold getStateStorage, restoreStateStorage, createStateStorage, updState, readState,
    freshUid, bind, gets, modify, ret in H |- *.
  destruct (stateMap st !! stateKeyOf stateItem) as [id0|] eqn:Hm.
  { simpl in H. injection H as <- <-. by rewrite Hm. }
  destruct (stateStorageWeakMap st !! si_oid stateItem) as [idc|] eqn:Hw.
  - destruct (stateHeap st !! idc) as [s|] eqn:Hs; [|discriminate].
    destruct (stateMap st !! ss_key s) as [idp|] eqn:Hp.
    + injection H as <- <-. rewrite Hm; simpl. rewrite Hw; simpl.
      rewrite Hs; simpl. by rewrite Hp.
    + rewrite Hs in H. injection H as <- <-. simpl.
      destruct (decide (ss_key s = stateKeyOf stateItem)) as [He|Hne].
      * by rewrite He, lookup_insert_eq.
      * rewrite lookup_insert_ne by done. rewrite Hm; simpl. rewrite Hw; simpl.
        rewrite lookup_insert_eq; simpl. by rewrite lookup_insert_eq.
  - injection H as <- <-. simpl. by rewrite lookup_insert_eq.
Qed.
(** X7: a state item that is not registered resolves to a storage holding
    the declared default, registered under the item's key, whether the
    storage is created or a cached one is restored (a restored storage does
    not keep the value it had); no query storage is touched. *)
Theorem unregistered_state_resolves_to_default
  (stateItem : RemeshStateItem) (st : Store) :
  stateMap st !! stateKeyOf stateItem = None →
  stateCacheAgrees st stateItem →
  ∃ st1 id s,
    getStateStorage stateItem st = (st1, Ok id) ∧
    stateMap st1 !! stateKeyOf stateItem = Some id ∧
    stateHeap st1 !! id = Some s ∧
    currentState s = s_default (State stateItem) ∧
    queryHeap st1 = queryHeap st.
Proof.
  intros Hm Hc.
  unfold getStateStorage, restoreStateStorage, createStateStorage, updState, readState,
    freshUid, bind, gets, modify, ret.
  rewrite Hm; simpl.
  destruct (stateStorageWeakMap st !! si_oid stateItem) as [idc|] eqn:Hw; simpl.
  - destruct (Hc idc Hw) as (s & Hs & Hk & HS).
    rewrite Hs; simpl. rewrite Hk, Hm; simpl. rewrite Hs; simpl.
    eexists _, idc, _. split; [reflexivity|]. simpl.
    rewrite !lookup_insert_eq. repeat split. simpl. unfold getStateValue. by rewrite HS.
  - eexists _, (uid st), _. split; [reflexivity|]. simpl.
    rewrite !lookup_insert_eq. by repeat split.
Qed.
Lemma addEdge_edges q r st st' :
  addEdge q r st = (st', Ok tt) →
  (∀ B, upOf st' B = if decide (B = q) then JSSet.add r (upOf st q) else upOf st B) ∧
  (∀ A, downOf st' A = if decide (A = r) then JSSet.add q (downOf st r) else downOf st A).
Proof.
  unfold addEdge. intros H.
  apply bind_Ok in H as ([] & st1 & H1 & H2).
  apply updQuery_Ok in H1 as (s & Hs & ->).
  destruct r as [u|u|u]; unfold updDownstreamSet in H2.
  - apply updState_Ok in H2 as (su & Hsu & ->). simpl in Hsu. split.
    + intros B. unfold upOf. simpl. destruct (decide (B = q)) as [->|Hne].
      * by rewrite lookup_insert_eq, Hs.
      * by rewrite lookup_insert_ne.
    + intros [a|a|a]; unfold downOf; simpl.
      * destruct (decide (StateRef a = StateRef u)) as [[= ->]|Hne].
        -- by rewrite lookup_insert_eq, Hsu.
        -- rewrite lookup_insert_ne by congruence. done.
      * by destruct (decide (EntityRef a = StateRef u)).
      * destruct (decide (QueryRef a = StateRef u)); [done|].
        destruct (decide (a = q)) as [->|Hne].
        -- by rewrite lookup_insert_eq, Hs.
        -- by rewrite lookup_insert_ne.
  - apply updEntity_Ok in H2 as (su & Hsu & ->). simpl in Hsu. split.
    + intros B. unfold upOf. simpl. destruct (decide (B = q)) as [->|Hne].
      * by rewrite lookup_insert_eq, Hs.
      * by rewrite lookup_insert_ne.
    + intros [a|a|a]; unfold downOf; simpl.
      * by destruct (decide (StateRef a = EntityRef u)).
      * destruct (decide (EntityRef a = EntityRef u)) as [[= ->]|Hne].
        -- by rewrite lookup_insert_eq, Hsu.
        -- rewrite lookup_insert_ne by congruence. done.
      * destruct (decide (QueryRef a = EntityRef u)); [done|].
        destruct (decide (a = q)) as [->|Hne].
        -- by rewrite lookup_insert_eq, Hs.
        -- by rewrite lookup_insert_ne.
  - apply updQuery_Ok in H2 as (su & Hsu & ->). simpl in Hsu. split.
    + intros B. unfold upOf. simpl. destruct (decide (B = u)) as [->|Hnu].
      * rewrite lookup_insert_eq. destruct (decide (u = q)) as [->|Hne].
        -- rewrite lookup_insert_eq in Hsu. injection Hsu as <-. simpl. by rewrite Hs.
        -- rewrite lookup_insert_ne in Hsu by done. simpl. by rewrite Hsu.
      * rewrite lookup_insert_ne by done. destruct (decide (B = q)) as [->|Hne].
        -- by rewrite lookup_insert_eq, Hs.
        -- by rewrite lookup_insert_ne.
    + intros [a|a|a]; unfold downOf; simpl.
      * by destruct (decide (StateRef a = QueryRef u)).
      * by destruct (decide (EntityRef a = QueryRef u)).
      * destruct (decide (QueryRef a = QueryRef u)) as [[= ->]|Hne].
        -- rewrite lookup_insert_eq. simpl. destruct (decide (u = q)) as [->|Hne].
           ++ rewrite lookup_insert_eq in Hsu. injection Hsu as <-. simpl. by rewrite Hs.
           ++ rewrite lookup_insert_ne in Hsu by done. by rewrite Hsu.
        -- rewrite lookup_insert_ne by congruence. destruct (decide (a = q)) as [->|Hnq].
           ++ by rewrite lookup_insert_eq, Hs.
           ++ by rewrite lookup_insert_ne.
Qed.

(** X9: [addEdge], the two statements every tracked read makes, puts the
    node read into the reader's upstream set and the reader into that node's
    downstream set, and keeps the graph symmetric if it was. *)
Theorem addEdge_adds_both_directions (q : N) (r : NodeRef) (st st' : Store) :
  addEdge q r st = (st', Ok tt) →
  r ∈ upOf st' q ∧ q ∈ downOf st' r ∧
  (edgesSymmetric st → edgesSymmetric st').
Proof.
  intros H. destruct (addEdge_edges _ _ _ _ H) as [Hup Hdown].
  split; [|split].
  - rewrite Hup. rewrite decide_True by done. apply elem_of_add. by left.
  - rewrite Hdown. rewrite decide_True by done. apply elem_of_add. by left.
  - intros Hsym A B. rewrite Hup, Hdown.
    destruct (decide (B = q)) as [->|HB], (decide (A = r)) as [->|HA];
      rewrite ?elem_of_add.
    + specialize (Hsym r q). tauto.
    + specialize (Hsym A q). split; [intros [?|?]; [done|tauto] | tauto].
    + specialize (Hsym r B). split; [tauto | intros [?|?]; [done|tauto]].
    + apply Hsym.
Qed.

(** X8: the key memo round-trips.  Resolving the key of an action again,
    with the memo the first resolution returned, gives the same key and the
    same memo; the entries of other objects are left alone. *)
Theorem key_memo_round_trip (memo : gmap N string) (a : RemeshQueryAction) :
  Identity.getQueryStorageKey (Identity.getQueryStorageKey memo a).2 a
  = Identity.getQueryStorageKey memo a ∧
  ∀ oid, oid ≠ qa_oid a →
         (Identity.getQueryStorageKey memo a).2 !! oid = memo !! oid.
Proof.
  unfold Identity.getQueryStorageKey.
  destruct (Identity.lookupMemo memo (qa_oid a)) as [key|] eqn:Hl; simpl.
  - split; [by rewrite Hl | done].
  - split; [|by intros oid Hne; rewrite lookup_insert_ne].
    unfold Identity.lookupMemo. rewrite lookup_insert_eq.
    case_bool_decide as He; [|done].
    unfold Identity.queryKeyString in He. cbv [String.append] in He. discriminate He.
Qed.
End StorageFacts.

Section SilentEvaluation.
Import Engine.
Variable queryImpl : N → Value → Prog Value.

(** X5: evaluation is silent.  Reading a query, settling it, recomputing it
    or subscribing to it never notifies a subscriber and never touches
    [pendingLeafSet], however the run ends. *)
Theorem query_evaluation_is_silent
  (fuel : nat) (a : RemeshQueryAction) (q : N) (st : Store) :
  quiet st (query queryImpl fuel a st).1 ∧
  quiet st (updateWipQueryStorage queryImpl fuel q st).1 ∧
  quiet st (updateQueryStorage queryImpl fuel q st).1 ∧
  quiet st (subscribeQuery queryImpl fuel a st).1.
Proof.
  destruct (quiet_evaluation queryImpl fuel)
    as (Hget & _ & _ & Hvalue & _ & _ & Hwip & Hupd).
  split; [|split; [|split]].
  - apply (Hvalue a).
  - apply (Hwip q).
  - apply (Hupd q).
  - assert (Hs : respects quiet (subscribeQuery queryImpl fuel a)).
    { unfold subscribeQuery.
      repeat first [ respects_step | apply Hget | apply quiet_updQuery ]. }
    apply Hs.
Qed.

End SilentEvaluation.

Lemma mark_only_marks_witness :
  ∃ s', Engine.queryHeap (Engine.mark 5 0 Examples.doubledSubscribed).1 !! 0%N = Some s' ∧
        Engine.status s' = Engine.wip ∧
        (Engine.qs_downstreamSet s' = [] →
         0%N ∈ Engine.pendingLeafSet (Engine.mark 5 0 Examples.doubledSubscribed).1).
Proof.
  apply (proj2 (mark_only_marks 5 0 Examples.doubledSubscribed)).
  vm_compute. reflexivity.
Defined.

Lemma getStateStorage_twice_witness :
  Engine.getStateStorage Examples.Count
    (Engine.getStateStorage Examples.Count Engine.emptyStore).1
  = ((Engine.getStateStorage Examples.Count Engine.emptyStore).1, Engine.Ok 0%N).
Proof.
  apply (getStateStorage_twice Examples.Count Engine.emptyStore).
  vm_compute. reflexivity.
Defined.

Lemma unregistered_state_resolves_to_default_witness :
  ∃ st1 id s,
    Engine.getStateStorage Examples.Count Engine.emptyStore = (st1, Engine.Ok id) ∧
    Engine.stateMap st1 !! Engine.stateKeyOf Examples.Count = Some id ∧
    Engine.stateHeap st1 !! id = Some s ∧
    Engine.currentState s = s_default (State Examples.Count) ∧
    Engine.queryHeap st1 = Engine.queryHeap Engine.emptyStore.
Proof.
  apply (unregistered_state_resolves_to_default Examples.Count Engine.emptyStore).
  - vm_compute. reflexivity.
  - intros id H. vm_compute in H. discriminate H.
Defined.

Lemma addEdge_adds_both_directions_witness :
  Engine.StateRef 1
    ∈ upOf (Engine.addEdge 0 (Engine.StateRef 1) Examples.doubledSubscribed).1 0 ∧
  0%N ∈ downOf (Engine.addEdge 0 (Engine.StateRef 1) Examples.doubledSubscribed).1
              (Engine.StateRef 1) ∧
  (edgesSymmetric Examples.doubledSubscribed →
   edgesSymmetric (Engine.addEdge 0 (Engine.StateRef 1) Examples.doubledSubscribed).1).
Proof.
  apply (addEdge_adds_both_directions 0 (Engine.StateRef 1) Examples.doubledSubscribed).
  vm_compute. reflexivity.
Defined.

(** ** Writes, recomputation and short circuits *)
Section UpdateFacts.
Import Engine.

Lemma getStateStorage_frame stateItem st st' r :
  getStateStorage stateItem st = (st', r) →
  queryHeap st' = queryHeap st ∧ pendingLeafSet st' = pendingLeafSet st ∧
  pendingEmitSet st' = pendingEmitSet st ∧ pendingClearSet st' = pendingClearSet st ∧
  emitted st' = emitted st ∧ entityHeap st' = entityHeap st.
Proof.
  unfold getStateStorage, restoreStateStorage, createStateStorage, updState, readState,
    freshUid, bind, gets, modify, ret.
  destruct (stateMap st !! stateKeyOf stateItem); simpl; [by intros [= <- <-]|].
  destruct (stateStorageWeakMap st !! si_oid stateItem) as [id|]; simpl.
  - destruct (stateHeap st !! id) as [s|] eqn:Hs; simpl; [|by intros [= <- <-]].
    destruct (stateMap st !! ss_key s); simpl; [by intros [= <- <-]|].
    rewrite Hs. simpl. by intros [= <- <-].
  - by intros [= <- <-].
Qed.

Lemma getEntityStorage_frame entityItem st st' r :
  getEntityStorage entityItem st = (st', r) →
  queryHeap st' = queryHeap st ∧ pendingLeafSet st' = pendingLeafSet st ∧
  pendingEmitSet st' = pendingEmitSet st ∧ pendingClearSet st' = pendingClearSet st ∧
  emitted st' = emitted st ∧ stateHeap st' = stateHeap st.
Proof.
  unfold getEntityStorage, restoreEntityStorage, createEntityStorage, updEntity, readEntity,
    freshUid, bind, gets, modify, ret.
  destruct (entityMap st !! entityKeyOf entityItem); simpl; [by intros [= <- <-]|].
  destruct (entityStorageWeakMap st !! ei_oid entityItem) as [id|]; simpl.
  - destruct (entityHeap st !! id) as [s|] eqn:Hs; simpl; [|by intros [= <- <-]].
    destruct (entityMap st !! es_key s); simpl; [by intros [= <- <-]|].
    rewrite Hs. simpl. by intros [= <- <-].
  - by intros [= <- <-].
Qed.

(** X10: writing a state to a value its [compare] calls equal to the current
    one does nothing beyond resolving the storage: no query storage changes
    (nothing is marked), nothing is queued for notification or for the leaf
    pass, and nobody is notified. *)
Theorem equal_state_write_is_invisible
  (fuel : nat) (stateItem : RemeshStateItem) (v : Value) (st st1 : Store)
  (id : N) (s : StateStorage) :
  getStateStorage stateItem st = (st1, Ok id) →
  stateHeap st1 !! id = Some s →
  s_compare (State stateItem) (currentState s) v = true →
  updateStateItem fuel stateItem v st = (st1, Ok tt) ∧
  queryHeap st1 = queryHeap st ∧
  pendingEmitSet st1 = pendingEmitSet st ∧
  pendingLeafSet st1 = pendingLeafSet st ∧
  emitted st1 = emitted st.
Proof.
  intros Hg Hs Heq. split.
  - unfold updateStateItem. rewrite (bind_run_Ok _ _ _ _ _ Hg).
    rewrite (bind_run_Ok _ _ _ _ _ (readState_run _ _ _ Hs)). by rewrite Heq.
  - apply getStateStorage_frame in Hg. tauto.
Qed.

Lemma markOnly_wipUpstreamAdd d r : respects markOnly (wipUpstreamAdd d r).
Proof.
  unfold wipUpstreamAdd. apply respects_updQuery; tc.
  intros st s Hs. eapply markOnly_updQuery; [done|]. by repeat split.
Qed.

Lemma forEach_add_mark_marks fuel r l st st' :
  forEach l (λ downstream, bind (wipUpstreamAdd downstream r) (λ _, mark fuel downstream))
    st = (st', Ok tt) →
  markOnly st st' ∧
  ∀ d, d ∈ l → ∃ s', queryHeap st' !! d = Some s' ∧ status s' = wip.
Proof.
  revert st. induction l as [|x l IH]; intros st; cbn [forEach]; intros H.
  { apply ret_Ok in H as [-> _]. split; [reflexivity|]. by intros d ?%elem_of_nil. }
  apply bind_Ok in H as ([] & st1 & Hx & H).
  destruct (IH _ H) as [Hmo Hall].
  apply bind_Ok in Hx as ([] & st0 & Ha & Hx).
  assert (Hmo0 : markOnly st st0)
    by (eapply (respects_run markOnly); [apply markOnly_wipUpstreamAdd | exact Ha]).
  assert (Hmo1 : markOnly st0 st1)
    by (eapply (respects_run markOnly); [apply mark_markOnly | exact Hx]).
  split.
  - etrans; [exact Hmo0|]. etrans; [exact Hmo1|exact Hmo].
  - intros d [->|Hd]%elem_of_cons; [|by apply Hall].
    destruct (mark_marks _ _ _ _ Hx) as (s1 & Hs1 & Hw1).
    by eapply markOnly_wip.
Qed.

(** X11: writing a state to a value its [compare] calls different stores
    the value, queues the state for notification, leaves every query of its
    downstream set [wip], notifies nobody yet and changes no edge. *)
Theorem changed_state_write_marks_downstream
  (fuel : nat) (stateItem : RemeshStateItem) (v : Value) (st st1 st' : Store)
  (id : N) (s : StateStorage) :
  getStateStorage stateItem st = (st1, Ok id) →
  stateHeap st1 !! id = Some s →
  s_compare (State stateItem) (currentState s) v = false →
  updateStateItem fuel stateItem v st = (st', Ok tt) →
  stateHeap st' !! id = Some (with_currentState v s) ∧
  pendingEmitHas (EState id) (pendingEmitSet st') = true ∧
  (∀ d, d ∈ ss_downstreamSet s →
        ∃ sd, queryHeap st' !! d = Some sd ∧ status sd = wip) ∧
  emitted st' = emitted st ∧
  sameEdges st1 st'.
Proof.
  intros Hg Hs Hne H. unfold updateStateItem in H.
  rewrite (bind_run_Ok _ _ _ _ _ Hg) in H.
  rewrite (bind_run_Ok _ _ _ _ _ (readState_run _ _ _ Hs)) in H. rewrite Hne in H.
  rewrite (bind_run_Ok _ _ _ _ _ (updState_run _ _ _ _ Hs)) in H.
  apply bind_Ok in H as ([] & st2 & Hadd & H).
  apply forEach_add_mark_marks in H as [Hmo Hall].
  unfold pendingEmitAdd, modify in Hadd.
  pose proof Hmo as (_&_&Hsh&_&_&_&_&_&_&_&Hpe&_&Hem&_).
  apply getStateStorage_frame in Hg as (_&_&_&_&Hem1&_).
  split; [|split; [|split; [done|split]]].
  - rewrite Hsh. injection Hadd as <-.
    destruct (pendingEmitHas _ _); simpl; by rewrite lookup_insert_eq.
  - rewrite Hpe. injection Hadd as <-.
    destruct (pendingEmitHas (EState id) (pendingEmitSet _)) eqn:Hhas; simpl; [done|].
    unfold pendingEmitHas. rewrite existsb_app. simpl.
    rewrite bool_decide_eq_true_2 by done. by rewrite orb_true_r.
  - rewrite Hem. injection Hadd as <-. by destruct (pendingEmitHas _ _).
  - apply markOnly_sameEdges in Hmo. destruct Hmo as [Hup Hdown].
    assert (Hst2 : (∀ q, upOf st2 q = upOf st1 q) ∧ (∀ r, downOf st2 r = downOf st1 r)).
    { injection Hadd as <-. split.
      - intros q. by destruct (pendingEmitHas _ _).
      - intros [a|a|a]; unfold downOf; destruct (pendingEmitHas _ _); simpl; try done.
        + destruct (decide (a = id)) as [->|Hn].
          * by rewrite lookup_insert_eq, Hs.
          * by rewrite lookup_insert_ne.
        + destruct (decide (a = id)) as [->|Hn].
          * by rewrite lookup_insert_eq, Hs.
          * by rewrite lookup_insert_ne. }
    destruct Hst2 as [Hup2 Hdown2]. split.
    + intros q. by rewrite Hup, Hup2.
    + intros r. by rewrite Hdown, Hdown2.
Qed.
(** X14: the first value given to an entity is not announced: it is stored
    under the item's key, and nothing is queued, nothing is marked and nobody
    is notified. *)
Theorem first_entity_value_is_not_announced
  (fuel : nat) (entityItem : RemeshEntityItem) (v : Value) (st : Store) :
  entityUnset st entityItem →
  ∃ st' id,
    updateEntityItem fuel entityItem v st = (st', Ok tt) ∧
    entityMap st' !! entityKeyOf entityItem = Some id ∧
    (currentEntity <$> entityHeap st' !! id) = Some (Some v) ∧
    queryHeap st' = queryHeap st ∧
    pendingEmitSet st' = pendingEmitSet st ∧
    pendingLeafSet st' = pendingLeafSet st ∧
    emitted st' = emitted st.
Proof.
  intros Hu.
  destruct (getEntityStorage_unset _ _ Hu) as (st1 & id & Hg & [Hm (s & Hs & Hn)] & Hq).
  unfold updateEntityItem. rewrite (bind_run_Ok _ _ _ _ _ Hg).
  rewrite (bind_run_Ok _ _ _ _ _ (readEntity_run _ _ _ Hs)). rewrite Hn.
  rewrite (updEntity_run _ _ _ _ Hs). eexists _, id. split; [done|]. simpl.
  split; [done|]. rewrite lookup_insert_eq. split; [done|].
  assert (Hf := Hg). revert Hf.
  unfold getEntityStorage, restoreEntityStorage, createEntityStorage, updEntity, readEntity,
    freshUid, bind, gets, modify, ret.
  destruct (entityMap st !! entityKeyOf entityItem); simpl; [by intros [= <- <-]|].
  destruct (entityStorageWeakMap st !! ei_oid entityItem) as [idc|]; simpl.
  - destruct (entityHeap st !! idc) as [sc|] eqn:Hsc; simpl; [|by intros [= <- <-]].
    destruct (entityMap st !! es_key sc); simpl; [by intros [= <- <-]|].
    rewrite Hsc. simpl. by intros [= <- <-].
  - by intros [= <- <-].
Qed.
End UpdateFacts.

Section RecomputeFacts.
Import Engine.
Variable queryImpl : N → Value → Prog Value.

(** X12: [updateQueryStorage] returns [true] exactly when the query's
    [compare] calls the evaluated value different from the stored one; only
    then is the value assigned and the query queued for notification, and
    otherwise the store is left as the evaluation left it. *)
Theorem recomputation_reports_change_iff_compare_differs
  (fuel : nat) (q : N) (st st' : Store) (b : bool) :
  updateQueryStorage queryImpl (S fuel) q st = (st', Ok b) →
  ∃ s set st0 st1 newValue s1,
    queryHeap st !! q = Some s ∧
    runProg (ctxGet queryImpl fuel (UpdateCtx q set))
            (queryImpl (queryId (qs_Query s)) (qs_arg s)) st0 = (st1, Ok newValue) ∧
    queryHeap st1 !! q = Some s1 ∧
    b = negb (q_compare (qs_Query s) (currentValue s1) newValue) ∧
    (b = false → st' = st1) ∧
    (b = true →
     queryHeap st' = <[q := with_currentValue newValue s1]> (queryHeap st1) ∧
     pendingEmitHas (EQuery q) (pendingEmitSet st') = true ∧
     emitted st' = emitted st1).
Proof.
  cbn [updateQueryStorage]. intros H.
  apply bind_Ok in H as (s & sta & Hr & H). apply readQuery_Ok in Hr as [-> Hs].
  apply bind_Ok in H as ([] & stb & _ & H).
  apply bind_Ok in H as (set & stc & _ & H).
  apply bind_Ok in H as ([] & st0 & _ & H).
  apply bind_Ok in H as (newValue & st1 & Hrun & H).
  apply bind_Ok in H as (s1 & st2 & Hr1 & H). apply readQuery_Ok in Hr1 as [-> Hs1].
  exists s, set, st0, st1, newValue, s1. split; [done|]. split; [done|]. split; [done|].
  destruct (q_compare (qs_Query s) (currentValue s1) newValue) eqn:Hc; simpl in *.
  - apply ret_Ok in H as [-> ->]. by repeat split.
  - rewrite (bind_run_Ok _ _ _ _ _ (updQuery_run _ _ _ _ Hs1)) in H.
    apply bind_Ok in H as ([] & st3 & Hadd & H). apply ret_Ok in H as [-> ->].
    split; [done|]. split; [done|]. intros _.
    unfold pendingEmitAdd, modify in Hadd. injection Hadd as <-.
    destruct (pendingEmitHas (EQuery q) (pendingEmitSet _)) eqn:Hhas; simpl.
    + by repeat split.
    + repeat split. unfold pendingEmitHas. rewrite existsb_app. simpl.
      rewrite bool_decide_eq_true_2 by done. by rewrite orb_true_r.
Qed.

Lemma foldM_cons {X B} (body : B → X → M B) (acc : B) (x : X) (l : list X) :
  foldM body acc (x :: l) = bind (body acc x) (λ acc', foldM body acc' l).
Proof. reflexivity. Qed.

Lemma foldM_cannot_trigger fuel st l acc :
  Forall (cannotTrigger st) l →
  foldM (λ shouldUpdate upstream,
           match upstream with
           | StateRef _ => ret true
           | QueryRef u =>
               bind (readQuery u) (λ us,
                 bind (if bool_decide (status us = wip)
                       then updateWipQueryStorage queryImpl fuel u else ret tt)
                   (λ _, bind (readQuery u) (λ us',
                           if bool_decide (status us' = updated) then ret true
                           else ret shouldUpdate)))
           | EntityRef _ => ret shouldUpdate
           end) acc l st = (st, Ok acc).
Proof.
  induction 1 as [|r l Hr Hl IH]; [done|]. rewrite foldM_cons.
  destruct r as [u|u|u]; simpl in Hr.
  - done.
  - unfold bind at 1, ret at 1. exact IH.
  - destruct Hr as (su & Hsu & Hd).
    rewrite (bind_run_Ok _ _ st st acc); [exact IH|].
    rewrite (bind_run_Ok _ _ _ _ _ (readQuery_run _ _ _ Hsu)).
    rewrite Hd. rewrite bool_decide_eq_false_2 by done.
    unfold bind at 1, ret at 1.
    rewrite (bind_run_Ok _ _ _ _ _ (readQuery_run _ _ _ Hsu)).
    rewrite Hd. by rewrite bool_decide_eq_false_2.
Qed.

(** X13: a [wip] query whose recorded stale upstreams are all settled as
    [default] (or are entities) is settled as [default] without being
    evaluated: the only change is its own status and its emptied
    [wipUpstreamSet]. *)
Theorem settled_upstreams_short_circuit
  (fuel : nat) (d : N) (st : Store) (sd : QueryStorage) :
  queryHeap st !! d = Some sd →
  status sd = wip →
  wipUpstreamSet sd ≠ [] →
  Forall (cannotTrigger st) (wipUpstreamSet sd) →
  updateWipQueryStorage queryImpl (S fuel) d st
  = (with_queryHeap
       (<[d := with_status default_ (with_wipUpstreamSet [] sd)]> (queryHeap st)) st,
     Ok tt).
Proof.
  intros Hd Hw Hne Hall. cbn [updateWipQueryStorage].
  rewrite (bind_run_Ok _ _ _ _ _ (readQuery_run _ _ _ Hd)).
  rewrite Hw. rewrite bool_decide_eq_true_2 by done. cbn [negb].
  assert (Hsz : negb (JSSet.size (wipUpstreamSet sd) =? 0)%nat = true).
  { destruct (wipUpstreamSet sd); [done|reflexivity]. }
  rewrite Hsz.
  erewrite (bind_run_Ok _ _ st _ false); last first.
  { rewrite (bind_run_Ok _ _ _ _ _ (foldM_cannot_trigger fuel st _ false Hall)).
    rewrite (bind_run_Ok _ _ _ _ _ (updQuery_run _ _ _ _ Hd)).
    cbn [negb]. unfold setStatus.
    erewrite (bind_run_Ok _ _ _ _ tt); [reflexivity|].
    apply updQuery_run. simpl. by rewrite lookup_insert_eq. }
  simpl. unfold ret. f_equal. unfold with_queryHeap. simpl.
  by rewrite insert_insert_eq.
Qed.

End RecomputeFacts.

Lemma equal_state_write_is_invisible_witness :
  Engine.updateStateItem Examples.fuel Examples.Count (VNum 0) Examples.doubledSubscribed
  = (Examples.doubledSubscribed, Engine.Ok tt).
Proof.
  refine (proj1 (equal_state_write_is_invisible Examples.fuel Examples.Count (VNum 0)
                   Examples.doubledSubscribed Examples.doubledSubscribed 1 _ _ _ _)).
  - vm_compute. reflexivity.
  - vm_compute. reflexivity.
  - vm_compute. reflexivity.
Defined.

Lemma changed_state_write_marks_downstream_witness :
  Engine.emitted
    (Engine.updateStateItem Examples.fuel Examples.Count (VNum 1)
       Examples.doubledSubscribed).1
  = Engine.emitted Examples.doubledSubscribed.
Proof.
  refine (proj1 (proj2 (proj2 (proj2
            (changed_state_write_marks_downstream Examples.fuel Examples.Count (VNum 1)
               Examples.doubledSubscribed Examples.doubledSubscribed _ 1 _ _ _ _ _))))).
  - vm_compute. reflexivity.
  - vm_compute. reflexivity.
  - vm_compute. reflexivity.
  - vm_compute. reflexivity.
Defined.

Lemma recomputation_reports_change_iff_compare_differs_witness :
  ∃ s set st0 st1 newValue s1,
    Engine.queryHeap Examples.labelDirty !! 1%N = Some s ∧
    Engine.runProg (Engine.ctxGet Examples.queryImpl 20 (Engine.UpdateCtx 1 set))
      (Examples.queryImpl (queryId (Engine.qs_Query s)) (Engine.qs_arg s)) st0
    = (st1, Engine.Ok newValue) ∧
    Engine.queryHeap st1 !! 1%N = Some s1 ∧
    true = negb (q_compare (Engine.qs_Query s) (Engine.currentValue s1) newValue) ∧
    (true = false →
     (Engine.updateQueryStorage Examples.queryImpl 21 1 Examples.labelDirty).1 = st1) ∧
    (true = true →
     Engine.queryHeap (Engine.updateQueryStorage Examples.queryImpl 21 1 Examples.labelDirty).1
     = <[1%N := Engine.with_currentValue newValue s1]> (Engine.queryHeap st1) ∧
     Engine.pendingEmitHas (Engine.EQuery 1)
       (Engine.pendingEmitSet
          (Engine.updateQueryStorage Examples.queryImpl 21 1 Examples.labelDirty).1) = true ∧
     Engine.emitted (Engine.updateQueryStorage Examples.queryImpl 21 1 Examples.labelDirty).1
     = Engine.emitted st1).
Proof.
  apply (recomputation_reports_change_iff_compare_differs Examples.queryImpl 20 1
           Examples.labelDirty).
  vm_compute. reflexivity.
Defined.

Lemma settled_upstreams_short_circuit_witness :
  ∃ sd,
    Engine.queryHeap Examples.labelHalfSettled !! 0%N = Some sd ∧
    Engine.updateWipQueryStorage Examples.queryImpl 1 0 Examples.labelHalfSettled
    = (Engine.with_queryHeap
         (<[0%N := Engine.with_status Engine.default_ (Engine.with_wipUpstreamSet [] sd)]>
            (Engine.queryHeap Examples.labelHalfSettled))
         Examples.labelHalfSettled, Engine.Ok tt).
Proof.
  eexists. split; [vm_compute; reflexivity|].
  apply (settled_upstreams_short_circuit Examples.queryImpl 0 0 Examples.labelHalfSettled).
  - vm_compute. reflexivity.
  - reflexivity.
  - discriminate.
  - constructor; [|constructor].
    eexists. split; [vm_compute; reflexivity | reflexivity].
Defined.

Lemma first_entity_value_is_not_announced_witness :
  ∃ st' id,
    Engine.updateEntityItem Examples.fuel Examples.u1 (Examples.user 1) Engine.emptyStore
    = (st', Engine.Ok tt) ∧
    Engine.entityMap st' !! Engine.entityKeyOf Examples.u1 = Some id ∧
    (Engine.currentEntity <$> Engine.entityHeap st' !! id) = Some (Some (Examples.user 1)) ∧
    Engine.queryHeap st' = Engine.queryHeap Engine.emptyStore ∧
    Engine.pendingEmitSet st' = Engine.pendingEmitSet Engine.emptyStore ∧
    Engine.pendingLeafSet st' = Engine.pendingLeafSet Engine.emptyStore ∧
    Engine.emitted st' = Engine.emitted Engine.emptyStore.
Proof.
  apply (first_entity_value_is_not_announced Examples.fuel Examples.u1 (Examples.user 1)
           Engine.emptyStore).
  exact I.
Defined.

(** ** Collecting query storages *)
Section CollectFacts.
Import Engine.

#[export] Instance onlyPrunes_preorder : PreOrder onlyPrunes.
Proof.
  split.
  - intros st. by repeat split.
  - intros st1 st2 st3 (Hm1&Hd1&Hu1&Hr1&Hp1&He1) (Hm2&Hd2&Hu2&Hr2&Hp2&He2).
    split; [intros k Hk; by apply Hm2, Hm1|].
    split; [intros r x Hx; by apply Hd1, Hd2|].
    split; [intros q; by rewrite Hu2, Hu1|].
    split; [intros q; by rewrite Hr2, Hr1|].
    split; congruence.
Qed.

Lemma updDownstreamSet_delete q r st st' res :
  updDownstreamSet r (JSSet.delete q) st = (st', res) →
  onlyPrunes st st' ∧ (res = Ok tt → q ∉ downOf st' r).
Proof.
  destruct r as [u|u|u]; unfold updDownstreamSet.
  - unfold updState, readState, bind, modify.
    destruct (stateHeap st !! u) as [s|] eqn:Hs; simpl; intros [= <- <-];
      [|split; [reflexivity|done]].
    split.
    + split; [done|]. split; [|by repeat split].
      intros [a|a|a] x; unfold downOf; simpl; try done.
      destruct (decide (a = u)) as [->|Hne].
      * rewrite lookup_insert_eq, Hs. simpl. by intros [_ ?]%elem_of_delete.
      * by rewrite lookup_insert_ne.
    + intros _. unfold downOf. simpl. rewrite lookup_insert_eq. simpl.
      by intros [? _]%elem_of_delete.
  - unfold updEntity, readEntity, bind, modify.
    destruct (entityHeap st !! u) as [s|] eqn:Hs; simpl; intros [= <- <-];
      [|split; [reflexivity|done]].
    split.
    + split; [done|]. split; [|by repeat split].
      intros [a|a|a] x; unfold downOf; simpl; try done.
      destruct (decide (a = u)) as [->|Hne].
      * rewrite lookup_insert_eq, Hs. simpl. by intros [_ ?]%elem_of_delete.
      * by rewrite lookup_insert_ne.
    + intros _. unfold downOf. simpl. rewrite lookup_insert_eq. simpl.
      by intros [? _]%elem_of_delete.
  - unfold updQuery, readQuery, bind, modify.
    destruct (queryHeap st !! u) as [s|] eqn:Hs; simpl; intros [= <- <-];
      [|split; [reflexivity|done]].
    split.
    + split; [done|]. split; [|split; [|split; [|done]]].
      * intros [a|a|a] x; unfold downOf; simpl; try done.
        destruct (decide (a = u)) as [->|Hne].
        -- rewrite lookup_insert_eq, Hs. simpl. by intros [_ ?]%elem_of_delete.
        -- by rewrite lookup_insert_ne.
      * intros a. unfold upOf. simpl. destruct (decide (a = u)) as [->|Hne].
        -- by rewrite lookup_insert_eq, Hs.
        -- by rewrite lookup_insert_ne.
      * intros a. simpl. destruct (decide (a = u)) as [->|Hne].
        -- by rewrite lookup_insert_eq, Hs.
        -- by rewrite lookup_insert_ne.
    + intros _. unfold downOf. simpl. rewrite lookup_insert_eq. simpl.
      by intros [? _]%elem_of_delete.
Qed.

Lemma onlyPrunes_updDownstreamSet_delete q r :
  respects onlyPrunes (updDownstreamSet r (JSSet.delete q)).
Proof.
  intros st. destruct (updDownstreamSet r (JSSet.delete q) st) as [st' res] eqn:H.
  by apply updDownstreamSet_delete in H as [? _].
Qed.

Lemma onlyPrunes_deleteKey k :
  respects onlyPrunes (modify (λ st, with_queryMap (delete k (queryMap st)) st)).
Proof.
  apply respects_modify; tc. intros st. split; [|by repeat split].
  intros k' Hk. simpl. destruct (decide (k = k')) as [->|Hne].
  - by rewrite lookup_delete_eq.
  - by rewrite lookup_delete_ne.
Qed.

Lemma onlyPrunes_clear fuel :
  (∀ q, respects onlyPrunes (clearQueryStorage fuel q)) ∧
  (∀ q, respects onlyPrunes (clearQueryStorageIfNeeded fuel q)).
Proof.
  induction fuel as [|fuel [IHc IHn]].
  { split; intros q; apply respects_stop; tc. }
  split; intros q.
  - cbn [clearQueryStorage].
    repeat first [ respects_step | apply onlyPrunes_deleteKey
                 | apply onlyPrunes_updDownstreamSet_delete | apply IHn ].
  - cbn [clearQueryStorageIfNeeded].
    repeat first [ respects_step | apply IHc ].
Qed.

Lemma forEach_cons {X} (x : X) (l : list X) (body : X → M unit) :
  forEach (x :: l) body = bind (body x) (λ _, forEach l body).
Proof. reflexivity. Qed.

Lemma clear_loop_prunes fuel q l st st' :
  forEach l (λ upstream,
    bind (updDownstreamSet upstream (JSSet.delete q))
      (λ _, match upstream with
            | QueryRef u => clearQueryStorageIfNeeded fuel u
            | _ => ret tt
            end)) st = (st', Ok tt) →
  onlyPrunes st st' ∧ ∀ r, r ∈ l → q ∉ downOf st' r.
Proof.
  revert st. induction l as [|x l IH]; intros st H.
  { apply ret_Ok in H as [-> _]. split; [reflexivity|]. by intros r ?%elem_of_nil. }
  rewrite forEach_cons in H.
  apply bind_Ok in H as ([] & st1 & Hx & H).
  destruct (IH _ H) as [Hp Hall].
  apply bind_Ok in Hx as ([] & st0 & Hdel & Hx).
  apply updDownstreamSet_delete in Hdel as [Hp0 Hq0]. specialize (Hq0 eq_refl).
  assert (Hp1 : onlyPrunes st0 st1).
  { destruct x as [u|u|u].
    - apply ret_Ok in Hx as [-> _]. reflexivity.
    - apply ret_Ok in Hx as [-> _]. reflexivity.
    - eapply (respects_run onlyPrunes); [apply (proj2 (onlyPrunes_clear fuel))|exact Hx]. }
  split; [etrans; [exact Hp0|]; etrans; [exact Hp1|exact Hp]|].
  intros r [->|Hr]%elem_of_cons; [|by apply Hall].
  intros Hin. apply Hq0.
  destruct Hp1 as (_&Hd1&_). destruct Hp as (_&Hd&_). by apply Hd1, Hd.
Qed.



(** X16: when the last subscriber of a query that nothing depends on
    unsubscribes, the storage leaves the query map and the downstream set of
    every node of its upstream set; it keeps its own upstream set (for a
    later revival), and nobody is notified. *)
Theorem last_unsubscribe_unregisters
  (fuel : nat) (q : N) (st st' : Store) (s : QueryStorage) :
  queryHeap st !! q = Some s →
  refCount s = 1 →
  qs_downstreamSet s = [] →
  is_Some (queryMap st !! qs_key s) →
  unsubscribe (S (S fuel)) q st = (st', Ok tt) →
  queryMap st' !! qs_key s = None ∧
  (∀ r, r ∈ upstreamSet s → q ∉ downOf st' r) ∧
  upOf st' q = upstreamSet s ∧
  emitted st' = emitted st.
Proof.
  intros Hs Hrc Hleaf [idk Hk] H. unfold unsubscribe in H.
  rewrite (bind_run_Ok _ _ _ _ _ (updQuery_run _ _ _ _ Hs)) in H.
  set (s1 := with_refCount (refCount s - 1) s) in H.
  set (st1 := with_queryHeap _ st) in H.
  assert (Hs1 : queryHeap st1 !! q = Some s1) by (unfold st1; simpl; by rewrite lookup_insert_eq).
  cbn [clearQueryStorageIfNeeded] in H.
  rewrite (bind_run_Ok _ _ _ _ _ (readQuery_run _ _ _ Hs1)) in H.
  assert (Hshould : shouldClearQueryStorage s1 = true).
  { unfold shouldClearQueryStorage, s1. simpl. by rewrite Hrc, Hleaf. }
  rewrite Hshould in H. cbn [clearQueryStorage] in H.
  rewrite (bind_run_Ok _ _ _ _ _ (readQuery_run _ _ _ Hs1)) in H.
  unfold bind at 1, gets at 1 in H. simpl in H. rewrite Hk in H.
  unfold bind at 1, modify at 1 in H.
  apply clear_loop_prunes in H as [(Hm&Hd&Hu&_&_&He) Hall].
  split; [|split; [done|split]].
  - apply Hm. simpl. by rewrite lookup_delete_eq.
  - rewrite Hu. unfold upOf. simpl. by rewrite lookup_insert_eq.
  - by rewrite He.
Qed.


(** X17: while another subscriber remains, unsubscribing only lowers the
    reference count: the storage stays registered and keeps its edges. *)
Theorem unsubscribe_with_other_subscribers
  (fuel : nat) (q : N) (st : Store) (s : QueryStorage) :
  queryHeap st !! q = Some s →
  1 < refCount s →
  unsubscribe (S fuel) q st
  = (with_queryHeap (<[q := with_refCount (refCount s - 1) s]> (queryHeap st)) st, Ok tt).
Proof.
  intros Hs Hrc. unfold unsubscribe.
  rewrite (bind_run_Ok _ _ _ _ _ (updQuery_run _ _ _ _ Hs)).
  cbn [clearQueryStorageIfNeeded].
  erewrite (bind_run_Ok _ _ _ _ (with_refCount (refCount s - 1) s)); last first.
  { apply readQuery_run. simpl. by rewrite lookup_insert_eq. }
  unfold shouldClearQueryStorage. simpl.
  by rewrite (proj2 (Z.ltb_lt 0 (refCount s - 1))) by lia.
Qed.
End CollectFacts.

(** [Doubled] has one subscriber, who unsubscribes. *)
Lemma last_unsubscribe_unregisters_witness :
  Engine.queryMap (Engine.unsubscribe 2 0 Examples.doubledSubscribed).1
    !! "Query/8/Doubled:" = None.
Proof.
  refine (proj1 (last_unsubscribe_unregisters 0 0 Examples.doubledSubscribed _
                   {| Engine.qs_Query := Examples.queryDecl 8 "Doubled";
                      Engine.qs_arg := VUndefined;
                      Engine.qs_key := "Query/8/Doubled:";
                      Engine.currentValue := VNum 0;
                      Engine.upstreamSet := [Engine.StateRef 1];
                      Engine.upstreamSetId := 0;
                      Engine.qs_downstreamSet := [];
                      Engine.refCount := 1;
                      Engine.status := Engine.default_;
                      Engine.wipUpstreamSet := [] |} _ _ _ _ _)).
  - vm_compute. reflexivity.
  - reflexivity.
  - reflexivity.
  - vm_compute. by eexists.
  - vm_compute. reflexivity.
Defined.

(** [Doubled] with two subscribers, one of whom unsubscribes. *)
Lemma unsubscribe_with_other_subscribers_witness :
  Engine.queryMap
    (Engine.unsubscribe 1 0 (Examples.subscribe' Examples.Doubled Examples.doubledSubscribed).1).1
    !! "Query/8/Doubled:" = Some 0%N.
Proof.
  rewrite (unsubscribe_with_other_subscribers 0 0
             (Examples.subscribe' Examples.Doubled Examples.doubledSubscribed).1
             {| Engine.qs_Query := Examples.queryDecl 8 "Doubled";
                Engine.qs_arg := VUndefined;
                Engine.qs_key := "Query/8/Doubled:";
                Engine.currentValue := VNum 0;
                Engine.upstreamSet := [Engine.StateRef 1];
                Engine.upstreamSetId := 0;
                Engine.qs_downstreamSet := [];
                Engine.refCount := 2;
                Engine.status := Engine.default_;
                Engine.wipUpstreamSet := [] |}).
  - vm_compute. reflexivity.
  - vm_compute. reflexivity.
  - reflexivity.
Defined.

(** ** The notification flush *)
Section FlushFacts.
Import Engine.

Lemma forEach_cons' {X} (x : X) (l : list X) (body : X → M unit) :
  forEach (x :: l) body = bind (body x) (λ _, forEach l body).
Proof. reflexivity. Qed.

Lemma emitItem_notifies fuel item n st :
  notificationOf st item = Some n →
  emitItem fuel item st = (with_emitted (emitted st ++ [n])%list st, Ok tt).
Proof.
  destruct item as [id|id|id|e|e a|c a]; simpl; intros Hn; try discriminate.
  - destruct (queryHeap st !! id) as [s|] eqn:Hs; [|discriminate].
    injection Hn as <-. unfold bind, readQuery, notify, modify. by rewrite Hs.
  - destruct (stateHeap st !! id) as [s|] eqn:Hs; [|discriminate].
    injection Hn as <-. unfold bind, readState, notify, modify. by rewrite Hs.
  - destruct (entityHeap st !! id) as [s|] eqn:Hs; [|discriminate].
    injection Hn as <-. unfold bind, readEntity, notify, modify. by rewrite Hs.
  - by injection Hn as <-.
  - by injection Hn as <-.
Qed.

Lemma flush_loop fuel items : ∀ notes st,
  pendingEmitSet st = [] →
  mapM (notificationOf st) items = Some notes →
  forEach items (λ item,
    bind (gets pendingEmitSet) (λ pending,
      if negb (pendingEmitHas item pending) then emitItem fuel item else ret tt)) st
  = (with_emitted (emitted st ++ notes)%list st, Ok tt).
Proof.
  induction items as [|item items IH]; intros notes st Hp Hn.
  - injection Hn as <-. unfold forEach, ret. f_equal.
    rewrite app_nil_r. by destruct st.
  - rewrite mapM_Some in Hn. apply Forall2_cons_inv_l in Hn as (n & notes' & Hi & Hrest & ->).
    rewrite forEach_cons'.
    erewrite (bind_run_Ok _ _ st _ tt); last first.
    { unfold bind at 1, gets at 1. rewrite Hp. simpl. by apply emitItem_notifies. }
    rewrite (IH notes'); [| done |].
    + simpl. f_equal. unfold with_emitted. simpl. by rewrite <- app_assoc.
    + apply mapM_Some. eapply Forall2_impl; [exact Hrest|].
      intros x y Hx. by destruct x.
Qed.

(** X18: the flush notifies each queued item once, in the order the items
    were queued, with the value its storage holds when the flush runs (events
    and commands with their argument), and leaves [pendingEmitSet] empty;
    this is for a queue that holds no delete payload. *)
Theorem flush_notifies_each_item_once_in_order
  (fuel : nat) (st : Store) (notes : list Notification) :
  mapM (notificationOf st) (pendingEmitSet st) = Some notes →
  clearPendingEmitSetIfNeeded (S (S fuel)) st
  = (with_emitted (emitted st ++ notes)%list (with_pendingEmitSet [] st), Ok tt).
Proof.
  intros Hn. cbn [clearPendingEmitSetIfNeeded].
  unfold bind at 1, gets at 1.
  destruct (pendingEmitSet st) as [|item items] eqn:Hp.
  - injection Hn as <-. simpl. unfold ret. f_equal. rewrite app_nil_r.
    destruct st. simpl in *. by subst.
  - change (length (item :: items) =? 0)%nat with false. cbv iota.
    unfold bind at 1, modify at 1.
    erewrite (bind_run_Ok _ _ _ _ tt); last first.
    { apply (flush_loop (S fuel) (item :: items) notes); [done|].
      apply mapM_Some. apply mapM_Some in Hn.
      eapply Forall2_impl; [exact Hn|]. intros x y Hx. by destruct x. }
    unfold bind at 1, gets at 1. simpl. done.
Qed.
End FlushFacts.

(** The flush after [Increase] was dispatched under a subscribed [Doubled]
    and the leaf pass has run. *)
Lemma flush_notifies_each_item_once_in_order_witness :
  Engine.clearPendingEmitSetIfNeeded 2 Examples.increaseSettled
  = (Engine.with_emitted
       (Engine.emitted Examples.increaseSettled
        ++ [Engine.NCommand 20 VUndefined; Engine.NState 1 (VNum 1);
            Engine.NQuery 0 (VNum 2)])%list
       (Engine.with_pendingEmitSet [] Examples.increaseSettled), Engine.Ok tt).
Proof.
  apply (flush_notifies_each_item_once_in_order 0 Examples.increaseSettled).
  vm_compute. reflexivity.
Defined.

(** * Recomputation: the old edges go first *)

Section DetachFacts.
Import Engine.
Variable queryImpl : N → Value → Prog Value.

#[export] Instance detaches_preorder q : PreOrder (detaches q).
Proof.
  split.
  - intros st. by repeat split.
  - intros st1 st2 st3 (Hu1&Hd1&Hk1) (Hu2&Hd2&Hk2).
    split; [intros B; by rewrite Hu2, Hu1|].
    split; [intros A x Hx; by apply Hd1, Hd2|].
    intros A x Hne Hx. by apply Hk2, Hk1.
Qed.

Lemma bind_result {A B} (m : M A) (k : A → M B) st st' r :
  bind m k st = (st', r) → r ≠ Stop →
  (∃ a st1, m st = (st1, Ok a) ∧ k a st1 = (st', r)) ∨
  (∃ msg, m st = (st', Throw msg) ∧ r = Throw msg).
Proof.
  unfold bind. destruct (m st) as [st1 [a|msg|]]; intros H Hr.
  - left. eauto.
  - right. injection H as <- <-. eauto.
  - injection H as <- <-. done.
Qed.

Lemma updDownstreamSet_delete_detaches q r st st' res :
  updDownstreamSet r (JSSet.delete q) st = (st', res) →
  detaches q st st' ∧ (∀ msg, res ≠ Throw msg) ∧ (res = Ok tt → q ∉ downOf st' r).
Proof.
  intros H. pose proof (updDownstreamSet_delete _ _ _ _ _ H) as [(_&Hd&Hu&_) Hq].
  split; [|split; [|done]].
  - split; [done|]. split; [done|]. intros A x Hne Hx.
    revert H. destruct r as [u|u|u]; unfold updDownstreamSet.
    + unfold updState, readState, bind, modify.
      destruct (stateHeap st !! u) as [s|] eqn:Hs; simpl; intros [= <- <-]; [|done].
      destruct A as [a|a|a]; unfold downOf in *; simpl; try done.
      destruct (decide (a = u)) as [->|Hn].
      * rewrite lookup_insert_eq. rewrite Hs in Hx. simpl. by apply elem_of_delete.
      * by rewrite lookup_insert_ne.
    + unfold updEntity, readEntity, bind, modify.
      destruct (entityHeap st !! u) as [s|] eqn:Hs; simpl; intros [= <- <-]; [|done].
      destruct A as [a|a|a]; unfold downOf in *; simpl; try done.
      destruct (decide (a = u)) as [->|Hn].
      * rewrite lookup_insert_eq. rewrite Hs in Hx. simpl. by apply elem_of_delete.
      * by rewrite lookup_insert_ne.
    + unfold updQuery, readQuery, bind, modify.
      destruct (queryHeap st !! u) as [s|] eqn:Hs; simpl; intros [= <- <-]; [|done].
      destruct A as [a|a|a]; unfold downOf in *; simpl; try done.
      destruct (decide (a = u)) as [->|Hn].
      * rewrite lookup_insert_eq. rewrite Hs in Hx. simpl. by apply elem_of_delete.
      * by rewrite lookup_insert_ne.
  - intros msg. revert H. destruct r as [u|u|u]; unfold updDownstreamSet.
    + unfold updState, readState, bind, modify.
      destruct (stateHeap st !! u); simpl; by intros [= <- <-].
    + unfold updEntity, readEntity, bind, modify.
      destruct (entityHeap st !! u); simpl; by intros [= <- <-].
    + unfold updQuery, readQuery, bind, modify.
      destruct (queryHeap st !! u); simpl; by intros [= <- <-].
Qed.

Lemma detach_tail q upstream st st' res :
  bind (downstreamSetOf upstream) (λ down,
    if (JSSet.size down =? 0)%nat then
      match upstream with
      | QueryRef u => pendingClearAdd u
      | _ => ret tt
      end
    else ret tt) st = (st', res) →
  detaches q st st' ∧ (∀ msg, res ≠ Throw msg).
Proof.
  unfold downstreamSetOf, pendingClearAdd, bind, readState, readEntity, readQuery,
    modify, ret.
  destruct upstream as [u|u|u].
  - destruct (stateHeap st !! u) as [s|]; simpl.
    + destruct (_ =? _)%nat; intros [= <- <-]; by split.
    + intros [= <- <-]; by split.
  - destruct (entityHeap st !! u) as [s|]; simpl.
    + destruct (_ =? _)%nat; intros [= <- <-]; by split.
    + intros [= <- <-]; by split.
  - destruct (queryHeap st !! u) as [s|]; simpl.
    + destruct (_ =? _)%nat; intros [= <- <-]; by split.
    + intros [= <- <-]; by split.
Qed.

Lemma detach_loop q l st st' res :
  forEach l (λ upstream,
    bind (updDownstreamSet upstream (JSSet.delete q)) (λ _,
      bind (downstreamSetOf upstream) (λ down,
        if (JSSet.size down =? 0)%nat then
          match upstream with
          | QueryRef u => pendingClearAdd u
          | _ => ret tt
          end
        else ret tt))) st = (st', res) →
  detaches q st st' ∧ (∀ msg, res ≠ Throw msg) ∧
  (res = Ok tt → ∀ A, A ∈ l → q ∉ downOf st' A).
Proof.
  revert st. induction l as [|x l IH]; intros st H.
  { injection H as <- <-. split; [reflexivity|]. split; [done|].
    by intros _ A ?%elem_of_nil. }
  change (forEach (x :: l) ?b) with (bind (b x) (λ _, forEach l b)) in H.
  unfold bind at 1 in H.
  destruct (bind (updDownstreamSet x (JSSet.delete q)) _ st) as [st1 r1] eqn:Hx.
  unfold bind at 1 in Hx.
  destruct (updDownstreamSet x (JSSet.delete q) st) as [st0 r0] eqn:Hdel.
  apply updDownstreamSet_delete_detaches in Hdel as (Hd0 & Hnt0 & Hq0).
  destruct r0 as [[]|msg|].
  2: { by destruct (Hnt0 msg). }
  2: { injection Hx as <- <-. injection H as <- <-. split; [done|]. by split. }
  apply detach_tail with (q := q) in Hx as [Hd1 Hnt1].
  destruct r1 as [[]|msg|].
  2: { by destruct (Hnt1 msg). }
  2: { injection H as <- <-. split; [by etrans|]. by split. }
  apply IH in H as (Hd & Hnt & Hall).
  split; [etrans; [exact Hd0|]; by etrans|]. split; [done|].
  intros -> A [->|HA]%elem_of_cons; [|by apply Hall].
  intros Hin. apply (Hq0 eq_refl).
  destruct Hd1 as (_&Hs1&_). destruct Hd as (_&Hs&_). by apply Hs1, Hs.
Qed.

(** X19: [updateQueryStorage] detaches the query before it evaluates.  When
    the evaluation starts (store [st0]), the query has an empty upstream set,
    none of its former upstreams lists it as a downstream any more, and no
    other edge of the graph has changed.  When the evaluation throws,
    [updateQueryStorage] throws the same error and the store is left as the
    evaluation left it: the former edges are not put back. *)
Theorem recomputation_detaches_before_evaluating
  (fuel : nat) (q : N) (st st' : Store) (r : Res bool) :
  updateQueryStorage queryImpl (S fuel) q st = (st', r) →
  r ≠ Stop →
  ∃ s set st0 st1 r1,
    queryHeap st !! q = Some s ∧
    upOf st0 q = [] ∧
    (∀ A, A ∈ upstreamSet s → q ∉ downOf st0 A) ∧
    (∀ B, B ≠ q → upOf st0 B = upOf st B) ∧
    (∀ A x, x ≠ q → x ∈ downOf st0 A ↔ x ∈ downOf st A) ∧
    runProg (ctxGet queryImpl fuel (UpdateCtx q set))
            (queryImpl (queryId (qs_Query s)) (qs_arg s)) st0 = (st1, r1) ∧
    r1 ≠ Stop ∧
    (∀ msg, r1 = Throw msg → r = Throw msg ∧ st' = st1).
Proof.
  cbn [updateQueryStorage]. intros H Hr.
  destruct (bind_result _ _ _ _ _ H Hr) as [(s & sta & Hrd & H1)|(msg & Hrd & _)];
    [clear H; rename H1 into H|].
  2: { unfold readQuery in Hrd. by destruct (queryHeap st !! q). }
  apply readQuery_Ok in Hrd as [-> Hs].
  destruct (bind_result _ _ _ _ _ H Hr) as [([] & stb & Hloop & H1)|(msg & Hloop & _)];
    [clear H; rename H1 into H|].
  2: { apply detach_loop in Hloop as (_ & Hnt & _). by destruct (Hnt msg). }
  apply detach_loop in Hloop as (Hdet & _ & Hall). specialize (Hall eq_refl).
  destruct (bind_result _ _ _ _ _ H Hr) as [(set & stc & Hset & H1)|(msg & Hset & _)];
    [clear H; rename H1 into H | discriminate Hset].
  injection Hset as <- <-.
  destruct (bind_result _ _ _ _ _ H Hr) as [([] & st0 & Hupd & H1)|(msg & Hupd & _)];
    [clear H; rename H1 into H|].
  2: { unfold updQuery, bind, readQuery, modify in Hupd. simpl in Hupd.
       by destruct (queryHeap stb !! q). }
  apply updQuery_Ok in Hupd as (sb & Hsb & ->). simpl in Hsb.
  destruct Hdet as (Hu & Hshrink & Hkeep).
  match type of H with
  | bind (runProg ?g ?p) _ ?s0 = _ =>
      destruct (runProg g p s0) as [st1 r1] eqn:Hrun;
      exists s, (setUid stb), s0, st1, r1
  end.
  split; [done|].
  split; [unfold upOf; simpl; by rewrite lookup_insert_eq|].
  assert (Hdown : ∀ A, downOf (with_queryHeap
             (<[q := with_upstreamSetId (setUid stb) (with_upstreamSet [] sb)]>
                (queryHeap (with_setUid (setUid stb + 1)%N stb)))
             (with_setUid (setUid stb + 1)%N stb)) A = downOf stb A).
  { intros [a|a|a]; unfold downOf; simpl; try done.
    destruct (decide (a = q)) as [->|Hn].
    - by rewrite lookup_insert_eq, Hsb.
    - by rewrite lookup_insert_ne. }
  split; [intros A HA; rewrite Hdown; by apply Hall|].
  split.
  { intros B HB. rewrite <- Hu. unfold upOf. simpl. by rewrite lookup_insert_ne. }
  split.
  { intros A x Hx. rewrite Hdown. split; [apply Hshrink | by apply Hkeep]. }
  split; [exact Hrun|].
  unfold bind in H. rewrite Hrun in H. destruct r1 as [v|msg|].
  - split; [done|]. by intros msg [=].
  - injection H as <- <-. split; [done|]. by intros msg' [= ->].
  - injection H as <- <-. done.
Qed.
End DetachFacts.

(** [Guarded] is recomputed after [Flag] became 1: the evaluation throws. *)
Lemma recomputation_detaches_before_evaluating_witness :
  ∃ s set st0 st1 r1,
    Engine.queryHeap Examples.guardedDirty !! 0%N = Some s ∧
    upOf st0 0 = [] ∧
    (∀ A, A ∈ Engine.upstreamSet s → 0%N ∉ downOf st0 A) ∧
    (∀ B, B ≠ 0%N → upOf st0 B = upOf Examples.guardedDirty B) ∧
    (∀ A x, x ≠ 0%N → x ∈ downOf st0 A ↔ x ∈ downOf Examples.guardedDirty A) ∧
    Engine.runProg (Engine.ctxGet Examples.queryImpl 20 (Engine.UpdateCtx 0 set))
      (Examples.queryImpl (queryId (Engine.qs_Query s)) (Engine.qs_arg s)) st0 = (st1, r1) ∧
    r1 ≠ Engine.Stop ∧
    (∀ msg, r1 = Engine.Throw msg →
       (Engine.Throw "boom" : Engine.Res bool) = Engine.Throw msg ∧
       (Engine.updateQueryStorage Examples.queryImpl 21 0 Examples.guardedDirty).1 = st1).
Proof.
  apply (recomputation_detaches_before_evaluating Examples.queryImpl 20 0
           Examples.guardedDirty
           (Engine.updateQueryStorage Examples.queryImpl 21 0 Examples.guardedDirty).1
           (Engine.Throw "boom")).
  - vm_compute. reflexivity.
  - discriminate.
Defined.

(** * The extern registry, and reviving a collected query *)

Section ExternFacts.
Import Extern.

(** X20: an extern that the store has not resolved yet resolves to the value
    of the first entry of [config.externs] given for it, and that value is
    kept: a later resolution returns it again and leaves the registry as it
    is, whatever list of overrides it is asked with. *)
Theorem extern_first_override_wins_and_sticks
  (pre post : list RemeshExternImpl) (externImpl : RemeshExternImpl)
  (other : option (list RemeshExternImpl)) (E : RemeshExtern) (st : ExternStore) :
  externStorageWeakMap st !! ex_oid E = None →
  Forall (λ i, ex_oid (impl_Extern i) ≠ ex_oid E) pre →
  ex_oid (impl_Extern externImpl) = ex_oid E →
  (getExternCurrentValue (Some (pre ++ externImpl :: post)%list) E st).1
  = impl_value externImpl ∧
  getExternCurrentValue other E
    (getExternCurrentValue (Some (pre ++ externImpl :: post)%list) E st).2
  = (impl_value externImpl,
     (getExternCurrentValue (Some (pre ++ externImpl :: post)%list) E st).2).
Proof.
  intros Hmiss Hpre Hhit.
  assert (Hv : getExternValue (Some (pre ++ externImpl :: post)%list) E
               = impl_value externImpl).
  { unfold getExternValue. simpl. induction Hpre as [|i pre Hi Hpre IH]; simpl.
    - by rewrite bool_decide_eq_true_2.
    - by rewrite bool_decide_eq_false_2. }
  unfold getExternCurrentValue, getExternStorage. rewrite Hmiss. simpl.
  rewrite lookup_insert_eq. simpl. by rewrite Hv.
Qed.

(** X21: an extern with no entry in [config.externs] (or a store configured
    without externs) resolves to its declared default; the resolution
    allocates one storage with the next [uid] and caches it. *)
Theorem extern_without_override_is_default
  (externs : option (list RemeshExternImpl)) (E : RemeshExtern) (st : ExternStore) :
  externStorageWeakMap st !! ex_oid E = None →
  Forall (λ i, ex_oid (impl_Extern i) ≠ ex_oid E) (default [] externs) →
  getExternCurrentValue externs E st
  = (ex_default E,
     {| x_uid := (x_uid st + 1)%N;
        externStorageWeakMap :=
          <[ex_oid E := {| xs_id := x_uid st; xs_Extern := E;
                           xs_currentValue := ex_default E |}]>
            (externStorageWeakMap st) |}).
Proof.
  intros Hmiss Hall.
  assert (Hv : getExternValue externs E = ex_default E).
  { unfold getExternValue. induction Hall as [|i l Hi Hl IH]; simpl; [done|].
    by rewrite bool_decide_eq_false_2. }
  unfold getExternCurrentValue, getExternStorage. rewrite Hmiss. by rewrite Hv.
Qed.
End ExternFacts.


Lemma extern_first_override_wins_and_sticks_witness :
  (Extern.getExternCurrentValue
     (Some [ {| Extern.impl_Extern := {| Extern.ex_oid := 2; Extern.ex_default := VNum 0 |};
                Extern.impl_value := VNum 5 |};
             {| Extern.impl_Extern := {| Extern.ex_oid := 1; Extern.ex_default := VNum 0 |};
                Extern.impl_value := VNum 7 |};
             {| Extern.impl_Extern := {| Extern.ex_oid := 1; Extern.ex_default := VNum 0 |};
                Extern.impl_value := VNum 9 |} ])
     {| Extern.ex_oid := 1; Extern.ex_default := VNum 0 |}
     {| Extern.x_uid := 0; Extern.externStorageWeakMap := ∅ |}).1
  = VNum 7.
Proof.
  refine (proj1 (extern_first_override_wins_and_sticks
    [ {| Extern.impl_Extern := {| Extern.ex_oid := 2; Extern.ex_default := VNum 0 |};
         Extern.impl_value := VNum 5 |} ]
    [ {| Extern.impl_Extern := {| Extern.ex_oid := 1; Extern.ex_default := VNum 0 |};
         Extern.impl_value := VNum 9 |} ]
    {| Extern.impl_Extern := {| Extern.ex_oid := 1; Extern.ex_default := VNum 0 |};
       Extern.impl_value := VNum 7 |}
    None
    {| Extern.ex_oid := 1; Extern.ex_default := VNum 0 |}
    {| Extern.x_uid := 0; Extern.externStorageWeakMap := ∅ |} _ _ _)).
  - reflexivity.
  - constructor; [|constructor]. simpl. discriminate.
  - reflexivity.
Defined.

Lemma extern_without_override_is_default_witness :
  Extern.getExternCurrentValue None
    {| Extern.ex_oid := 1; Extern.ex_default := VNum 3 |}
    {| Extern.x_uid := 4; Extern.externStorageWeakMap := ∅ |}
  = (VNum 3,
     {| Extern.x_uid := 5;
        Extern.externStorageWeakMap :=
          <[1%N := {| Extern.xs_id := 4;
                      Extern.xs_Extern := {| Extern.ex_oid := 1; Extern.ex_default := VNum 3 |};
                      Extern.xs_currentValue := VNum 3 |}]> ∅ |}).
Proof.
  apply (extern_without_override_is_default None
           {| Extern.ex_oid := 1; Extern.ex_default := VNum 3 |}
           {| Extern.x_uid := 4; Extern.externStorageWeakMap := ∅ |}).
  - reflexivity.
  - constructor.
Defined.

Section RestoreFacts.
Import Engine.
Variable queryImpl : N → Value → Prog Value.

Lemma restore_state_step q u st :
  is_Some (stateHeap st !! u) →
  ∃ st1,
    bind (updDownstreamSet (StateRef u) (JSSet.add q)) (λ _, restoreStateStorage u) st
    = (st1, Ok tt) ∧
    queryHeap st1 = queryHeap st ∧ queryMap st1 = queryMap st ∧
    entityHeap st1 = entityHeap st ∧
    (∀ u', is_Some (stateHeap st !! u') → is_Some (stateHeap st1 !! u')).
Proof.
  intros [s Hs].
  unfold updDownstreamSet, restoreStateStorage, updState, readState, bind, gets, modify, ret.
  rewrite Hs. cbn. rewrite lookup_insert_eq. cbn.
  destruct (stateMap st !! ss_key s); cbn.
  - eexists. split; [reflexivity|]. cbn. repeat apply conj; try done.
    intros u' Hu'. apply lookup_insert_is_Some'. by right.
  - rewrite lookup_insert_eq. cbn. eexists. split; [reflexivity|]. cbn.
    repeat apply conj; try done.
    intros u' Hu'. apply lookup_insert_is_Some'. right.
    apply lookup_insert_is_Some'. by right.
Qed.

Lemma restore_loop_throws fuel q e rest pre st :
  Forall (λ u, is_Some (stateHeap st !! u)) pre →
  is_Some (entityHeap st !! e) →
  ∃ st',
    forEach (map StateRef pre ++ EntityRef e :: rest)%list (λ upstream,
      bind (updDownstreamSet upstream (JSSet.add q)) (λ _,
        match upstream with
        | QueryRef u => restoreQueryStorage queryImpl fuel u
        | StateRef u => restoreStateStorage u
        | EntityRef _ => throw "Unknown upstream: [object Object]"
        end)) st
    = (st', Throw "Unknown upstream: [object Object]") ∧
    queryHeap st' = queryHeap st ∧ queryMap st' = queryMap st ∧
    q ∈ downOf st' (EntityRef e).
Proof.
  revert st. induction pre as [|u pre IH]; intros st Hall [se Hse]; cbn [map app].
  - change (forEach (?x :: ?l) ?b) with (bind (b x) (λ _, forEach l b)).
    erewrite bind_run_Throw; last first.
    { erewrite (bind_run_Ok _ _ _ _ tt); [reflexivity|].
      unfold updDownstreamSet. apply updEntity_run. exact Hse. }
    eexists. split; [reflexivity|]. split; [done|]. split; [done|].
    unfold downOf. cbn. rewrite lookup_insert_eq. cbn. apply elem_of_add. by left.
  - change (forEach (?x :: ?l) ?b) with (bind (b x) (λ _, forEach l b)).
    apply Forall_cons in Hall as [Hu Hall].
    destruct (restore_state_step q u st Hu) as (st1 & Hstep & Hq & Hm & He & Hdom).
    rewrite (bind_run_Ok _ _ _ _ _ Hstep).
    destruct (IH st1) as (st' & Hrun & Hq' & Hm' & Hin).
    { eapply Forall_impl; [exact Hall|]. intros u'. apply Hdom. }
    { rewrite He. by eexists. }
    exists st'. split; [exact Hrun|]. split; [by rewrite Hq'|]. by split; [rewrite Hm'|].
Qed.

(** X22: reviving a collected query storage whose upstream set holds an
    entity storage (after state storages only) throws
    [Unknown upstream: [object Object]].  By then the storage is registered
    in [queryMap] again, with its old value and the status [default], and is
    listed as a downstream of the entity: the revival is not undone. *)
Theorem revival_with_entity_upstream_throws
  (fuel : nat) (q e : N) (st : Store) (s : QueryStorage)
  (pre : list N) (rest : list NodeRef) :
  queryHeap st !! q = Some s →
  queryMap st !! qs_key s = None →
  upstreamSet s = (map StateRef pre ++ EntityRef e :: rest)%list →
  Forall (λ u, is_Some (stateHeap st !! u)) pre →
  is_Some (entityHeap st !! e) →
  ∃ st',
    restoreQueryStorage queryImpl (S fuel) q st
    = (st', Throw "Unknown upstream: [object Object]") ∧
    queryMap st' !! qs_key s = Some q ∧
    queryHeap st' !! q = Some (with_status default_ s) ∧
    q ∈ downOf st' (EntityRef e).
Proof.
  intros Hs Hm Hup Hpre He. cbn [restoreQueryStorage].
  rewrite (bind_run_Ok _ _ _ _ _ (readQuery_run _ _ _ Hs)).
  unfold bind at 1, gets at 1. rewrite Hm.
  unfold setStatus. rewrite (bind_run_Ok _ _ _ _ _ (updQuery_run _ _ _ _ Hs)).
  unfold bind at 1, modify at 1. rewrite Hup.
  match goal with
  | |- context [bind (forEach _ _) _ ?s0] =>
      destruct (restore_loop_throws fuel q e rest pre s0) as (st' & Hrun & Hq & Hmap & Hin);
        [exact Hpre | exact He |]
  end.
  rewrite (bind_run_Throw _ _ _ _ _ Hrun).
  exists st'. split; [reflexivity|]. rewrite Hq, Hmap. cbn.
  split; [apply lookup_insert_eq|]. split; [apply lookup_insert_eq | exact Hin].
Qed.
End RestoreFacts.

(** [Sum] was recomputed once (its upstream set is [Count], then [u1]) and
    its only subscriber has left. *)
Lemma revival_with_entity_upstream_throws_witness :
  ∃ s, Engine.queryHeap (Engine.unsubscribe 5 1 Examples.sumTracked).1 !! 1%N = Some s ∧
  ∃ st',
    Engine.restoreQueryStorage Examples.queryImpl 5 1 (Engine.unsubscribe 5 1 Examples.sumTracked).1
    = (st', Engine.Throw "Unknown upstream: [object Object]") ∧
    Engine.queryMap st' !! Engine.qs_key s = Some 1%N ∧
    Engine.queryHeap st' !! 1%N = Some (Engine.with_status Engine.default_ s) ∧
    1%N ∈ downOf st' (Engine.EntityRef 0).
Proof.
  eexists. split; [vm_compute; reflexivity|].
  apply (revival_with_entity_upstream_throws Examples.queryImpl 4 1 0
           (Engine.unsubscribe 5 1 Examples.sumTracked).1 _ [2%N] []).
  - vm_compute. reflexivity.
  - vm_compute. reflexivity.
  - vm_compute. reflexivity.
  - constructor; [|constructor]. vm_compute. by eexists.
  - vm_compute. by eexists.
Defined.
